(** * Whiteboard: the chain ordering engine of [src/whiteboard.js]

    A shallow embedding of the [Whiteboard] class and the properties of its
    constructor, [items], [top], [add] and [extract].

    Items are JavaScript objects: they live in an object store and the
    whiteboard, its callers and the arrays it returns hold references to
    them.  The store is a finite map from locations to items; a reference is
    a location. *)

From stdpp Require Import gmap strings list fin_maps sets.

#[local] Set Warnings "-clear-no-such-hyp".

(** ** Values *)

(** The primitive values an [id], a [lowerId] or a [data] field can hold.
    Numbers are the integer-valued ones together with [NaN]. *)
Inductive val : Type :=
  | VUndefined
  | VNull
  | VBool (b : bool)
  | VNum (n : Z)
  | VNaN
  | VStr (s : string).

Arguments VStr s%_string.

#[global] Instance val_eq_dec : EqDecision val.
Proof. solve_decision. Defined.

Definition val_encode (v : val) : unit + (unit + (bool + (Z + (unit + string)))) :=
  match v with
  | VUndefined => inl tt
  | VNull => inr (inl tt)
  | VBool b => inr (inr (inl b))
  | VNum n => inr (inr (inr (inl n)))
  | VNaN => inr (inr (inr (inr (inl tt))))
  | VStr s => inr (inr (inr (inr (inr s))))
  end.

Definition val_decode (x : unit + (unit + (bool + (Z + (unit + string))))) : val :=
  match x with
  | inl _ => VUndefined
  | inr (inl _) => VNull
  | inr (inr (inl b)) => VBool b
  | inr (inr (inr (inl n))) => VNum n
  | inr (inr (inr (inr (inl _)))) => VNaN
  | inr (inr (inr (inr (inr s)))) => VStr s
  end.

#[global] Instance val_countable : Countable val.
Proof.
  apply (inj_countable' val_encode val_decode).
  by intros [].
Defined.

(** JavaScript truthiness, the test behind [if (item.lowerId)] and [a && b]. *)
Definition truthy (v : val) : bool :=
  match v with
  | VUndefined | VNull | VNaN => false
  | VBool b => b
  | VNum n => negb (n =? 0)%Z
  | VStr s => negb (String.eqb s EmptyString)
  end.

(** Strict equality [a === b].  The keys of a [Map] and the members of a
    [Set] are compared by SameValueZero instead, which on these values is
    plain equality ([NaN] is a usable key). *)
Definition strict_eq (a b : val) : bool :=
  match a, b with
  | VNaN, _ | _, VNaN => false
  | _, _ => bool_decide (a = b)
  end.

(** ** Items and the object store *)

Record item : Type := Item { id : val; lowerId : val; data : val }.

#[global] Instance item_eq_dec : EqDecision item.
Proof. solve_decision. Defined.

#[global] Instance item_inhabited : Inhabited item :=
  populate (Item VUndefined VUndefined VUndefined).

Definition loc : Type := nat.

Abbreviation store := (gmap loc item).

(** ** Errors and outcomes *)

(** Every failure is [throw new Error(msg)]; the constructor of [error] tells
    which message it is and carries the value interpolated into it. *)
Inductive error : Type :=
  | DuplicateId (v : val)        (* Item with id ... already exists. *)
  | DanglingReference (v : val)  (* Item with lowerId ... does not exist. *)
  | CycleDetected (v : val)      (* Cycle detected involving item ... *)
  | BrokenChain (v : val)        (* ... does not match the current top item. *)
  | NotFound (v : val).          (* ... does not exist on the whiteboard. *)

#[global] Instance error_eq_dec : EqDecision error.
Proof. solve_decision. Defined.

(** [OutOfFuel] is the outcome of a recursion cut short by its fuel; the
    two recursive closures of the constructor are the only fuelled
    definitions, and [construct_total] shows the constructor never
    ends there. *)
Inductive outcome (A : Type) : Type :=
  | Ok (a : A)
  | Throw (e : error)
  | OutOfFuel.

Arguments Ok {A} a.
Arguments Throw {A} e.
Arguments OutOfFuel {A}.

#[global] Instance outcome_ret : MRet outcome := @Ok.
#[global] Instance outcome_bind : MBind outcome := λ A B f x,
  match x with
  | Ok a => f a
  | Throw e => Throw e
  | OutOfFuel => OutOfFuel
  end.

(** ** The constructor *)

Section constructor.
Context (h : store).

Definition idOf (it : loc) : val := id (h !!! it).
Definition lowerOf (it : loc) : val := lowerId (h !!! it).

(** First [forEach]: unique ids, and the [Map] from id to item. *)
Fixpoint buildMap (items : list loc) (itemMap : gmap val loc)
    : outcome (gmap val loc) :=
  match items with
  | [] => Ok itemMap
  | it :: rest =>
      match itemMap !! idOf it with
      | Some _ => Throw (DuplicateId (idOf it))
      | None => buildMap rest (<[idOf it := it]> itemMap)
      end
  end.

Context (itemMap : gmap val loc).

(** The closure [checkCycle]; [visited] is the [Set] it shares with every
    other call. *)
Fixpoint checkCycle (fuel : nat) (it : loc) (visited : gset val)
    : outcome (gset val) :=
  match fuel with
  | 0 => OutOfFuel
  | S fuel =>
      if bool_decide (idOf it ∈ visited) then Throw (CycleDetected (idOf it))
      else
        let visited := visited ∪ {[idOf it]} in
        visited ←
          (if truthy (lowerOf it) then
             match itemMap !! lowerOf it with
             | Some lower => checkCycle fuel lower visited
             | None => Ok visited
             end
           else Ok visited);
        Ok (visited ∖ {[idOf it]})
  end.

(** Second [forEach]: the existence test of [lowerId], then [checkCycle],
    item by item. *)
Fixpoint validate (fuel : nat) (items : list loc) (visited : gset val)
    : outcome (gset val) :=
  match items with
  | [] => Ok visited
  | it :: rest =>
      if truthy (lowerOf it) && negb (bool_decide (is_Some (itemMap !! lowerOf it)))
      then Throw (DanglingReference (lowerOf it))
      else
        visited ← checkCycle fuel it visited;
        validate fuel rest visited
  end.

(** The closure [addItemToOrder]; the state is the array [orderedItems]
    and the [Set] [addedItems]. *)
Fixpoint addItemToOrder (fuel : nat) (it : loc) (st : list loc * gset val)
    : outcome (list loc * gset val) :=
  match fuel with
  | 0 => OutOfFuel
  | S fuel =>
      if bool_decide (idOf it ∈ st.2) then Ok st
      else
        st ←
          (if truthy (lowerOf it) then
             match itemMap !! lowerOf it with
             | Some lowerItem => addItemToOrder fuel lowerItem st
             | None => Ok st
             end
           else Ok st);
        Ok (st.1 ++ [it], st.2 ∪ {[idOf it]})
  end.

(** Third [forEach]. *)
Fixpoint linearize (fuel : nat) (items : list loc) (st : list loc * gset val)
    : outcome (list loc * gset val) :=
  match items with
  | [] => Ok st
  | it :: rest =>
      st ← addItemToOrder fuel it st;
      linearize fuel rest st
  end.

End constructor.

(** [new Whiteboard(items)]: the value is the array [this.itemsList].  Each
    recursion can go as deep as a chain of distinct ids is long, so one more
    than the number of items is fuel enough. *)
Definition construct (h : store) (items : list loc) : outcome (list loc) :=
  let fuel := S (length items) in
  itemMap ← buildMap h items ∅;
  _ ← validate h itemMap fuel items ∅;
  st ← linearize h itemMap fuel items ([], ∅);
  Ok st.1.

(** ** The whiteboard and its methods *)

(** What a method can read or change: the object store, the array
    [this.itemsList] of the whiteboard, and the source of random numbers.
    [random n] is the text that the [n]-th call of [Math.random] yields once
    [generateUniqueId] has applied [.toString(36).slice(2, 11)] to it, and
    [drawn] counts the calls made so far. *)
Record state : Type := State {
  objects : store;
  itemsList : list loc;
  random : nat → string;
  drawn : nat
}.

(** A read of [array[i]] at a JavaScript index: [undefined] out of range. *)
Definition at_index {A : Type} (l : list A) (i : Z) : option A :=
  if bool_decide (0 ≤ i)%Z then l !! Z.to_nat i else None.

(** [items()]: a new array with the same elements. *)
Definition items (st : state) : list loc := itemsList st.

(** [top()]: [this.itemsList[this.itemsList.length - 1] || undefined].  An
    element is an object, hence truthy; [None] is [undefined]. *)
Definition top (st : state) : option loc :=
  at_index (itemsList st) (Z.of_nat (length (itemsList st)) - 1).

(** [add(item)] *)
Definition add (it : loc) (st : state) : state * outcome unit :=
  let o := objects st in
  if existsb (λ existingItem, strict_eq (id (o !!! existingItem)) (id (o !!! it)))
       (itemsList st)
  then (st, Throw (DuplicateId (id (o !!! it))))
  else if match top st with
          | Some t => negb (strict_eq (id (o !!! t)) (lowerId (o !!! it)))
          | None => false
          end
  then (st, Throw (BrokenChain (lowerId (o !!! it))))
  else (State o (itemsList st ++ [it]) (random st) (drawn st), Ok ()).

(** [generateUniqueId()] *)
Definition generateUniqueId (st : state) : state * val :=
  (State (objects st) (itemsList st) (random st) (S (drawn st)),
   VStr ("id_" +:+ random st (drawn st))).

(** The callback of [items.map] in [extract]: the copy
    [{...existingItem, id: this.generateUniqueId(), lowerId: undefined}] is a
    new object of the store. *)
Definition extractItem (it : loc) (st : state) : state * outcome loc :=
  let o := objects st in
  match find (λ existing, strict_eq (id (o !!! existing)) (id (o !!! it)))
          (itemsList st) with
  | None => (st, Throw (NotFound (id (o !!! it))))
  | Some existingItem =>
      let '(st, newId) := generateUniqueId st in
      let copy := Item newId VUndefined (data (o !!! existingItem)) in
      let l := fresh (dom (objects st)) in
      (State (<[l := copy]> (objects st)) (itemsList st) (random st) (drawn st),
       Ok l)
  end.

(** [items.map(...)], left to right; a throw abandons the rest. *)
Fixpoint extractMap (items : list loc) (st : state) : state * outcome (list loc) :=
  match items with
  | [] => (st, Ok [])
  | it :: rest =>
      match extractItem it st with
      | (st, Ok l) =>
          match extractMap rest st with
          | (st, Ok ls) => (st, Ok (l :: ls))
          | r => r
          end
      | (st, Throw e) => (st, Throw e)
      | (st, OutOfFuel) => (st, OutOfFuel)
      end
  end.

(** One turn of the [for] loop:
    [extractedItems[i].lowerId = extractedItems[i - 1].id]. *)
Definition linkStep (extractedItems : list loc) (o : store) (i : nat) : store :=
  match extractedItems !! i, extractedItems !! (i - 1) with
  | Some cur, Some prev =>
      <[cur := Item (id (o !!! cur)) (id (o !!! prev)) (data (o !!! cur))]> o
  | _, _ => o
  end.

(** [for (let i = 1; i < extractedItems.length; i++)] *)
Definition linkAll (extractedItems : list loc) (o : store) : store :=
  foldl (linkStep extractedItems) o (seq 1 (length extractedItems - 1)).

(** [extract(items)] *)
Definition extract (items : list loc) (st : state) : state * outcome (list loc) :=
  match extractMap items st with
  | (st, Ok extractedItems) =>
      (State (linkAll extractedItems (objects st)) (itemsList st) (random st)
         (drawn st),
       Ok extractedItems)
  | r => r
  end.

(** The items a list of references denotes, read from the store. *)
Definition snapshot (o : store) (ls : list loc) : list item := (o !!!.) <$> ls.

(** ** Notions used to state the properties *)

(** The item both recursive closures of the constructor move to from [it]:
    the entry of the [Map] under a truthy [lowerId]. *)
Definition lowerItem (h : store) (itemMap : gmap val loc) (it : loc) : option loc :=
  if truthy (lowerOf h it) then itemMap !! lowerOf h it else None.

(** [descends h itemMap it n]: the walk down from [it] ends after [n] moves,
    at an item with nothing to move to. *)
Inductive descends (h : store) (itemMap : gmap val loc) : loc → nat → Prop :=
  | descends_bottom it :
      lowerItem h itemMap it = None → descends h itemMap it 0
  | descends_lower it lower n :
      lowerItem h itemMap it = Some lower →
      descends h itemMap lower n →
      descends h itemMap it (S n).

(** Every entry of the [Map] sits under its own id. *)
Definition coherent (h : store) (itemMap : gmap val loc) : Prop :=
  ∀ k l, itemMap !! k = Some l → idOf h l = k.

(** The failing side of the existence test of the second [forEach]. *)
Definition dangling (h : store) (itemMap : gmap val loc) (it : loc) : bool :=
  truthy (lowerOf h it) && negb (bool_decide (is_Some (itemMap !! lowerOf h it))).

(** No two distinct records of [l] have the same defined [lowerId]. *)
Definition no_branching (h : store) (l : list loc) : Prop :=
  ∀ x y, x ∈ l → y ∈ l → x ≠ y →
    lowerOf h x ≠ VUndefined → lowerOf h x ≠ lowerOf h y.

(** [chained h below c]: the first record of [c] has [lowerId] [below], and
    each later one has the [id] of the record before it. *)
Fixpoint chained (h : store) (below : val) (c : list loc) : Prop :=
  match c with
  | [] => True
  | r :: rest => lowerOf h r = below ∧ chained h (idOf h r) rest
  end.

(** [c], bottom to top, is a single chain: its ids are defined and pairwise
    distinct, its bottom record has [lowerId] [undefined] and every other
    record has the [id] of the one below it. *)
Definition single_chain (h : store) (c : list loc) : Prop :=
  c ≠ [] ∧
  NoDup (idOf h <$> c) ∧
  Forall (λ r, idOf h r ≠ VUndefined) c ∧
  chained h VUndefined c.

(** Every record of [l] with a truthy [lowerId] comes after a record whose
    [id] that [lowerId] is. *)
Definition lower_precedes (h : store) (l : list loc) : Prop :=
  ∀ pre x post, l = pre ++ x :: post →
    truthy (lowerOf h x) = true → lowerOf h x ∈ idOf h <$> pre.

(** The record of the whiteboard that [extract] copies for the selected
    [it]: the first one with an [id] strictly equal to that of [it]. *)
Definition selected (st : state) (it : loc) : option loc :=
  find (λ existing, strict_eq (id (objects st !!! existing)) (id (objects st !!! it)))
    (itemsList st).

(** [l] refers to an object of the store. *)
Definition live (st : state) (l : loc) : Prop := is_Some (objects st !! l).

(** The id that the [n]-th call of [Math.random] turns into. *)
Definition drawnId (rnd : nat → string) (n : nat) : val := VStr ("id_" +:+ rnd n).

(** ** Boards used as examples *)

(** The board of the tests of [extract], in the order the test gives it. *)
Definition pets : store :=
  list_to_map
    [(1, Item (VStr "dog") VUndefined (VStr "ww"));
     (2, Item (VStr "cat") (VStr "rabbit") (VStr "xx"));
     (3, Item (VStr "rabbit") (VStr "dog") (VStr "yy"));
     (4, Item (VStr "tortoise") (VStr "cat") (VStr "zz"))].

(** [Math.random] yielding what the comment of [extract] calls [donkey] and
    [chicken]. *)
Definition donkey_chicken (n : nat) : string :=
  match n with 0 => "donkey" | _ => "chicken" end.

(** [Math.random] yielding [0.5] every time: [(0.5).toString(36)] is [0.i]. *)
Definition always_half (n : nat) : string := "i".

(** [Math.random] yielding [0.09999999999999987] and then
    [0.10000000000000009]: two numbers that both begin [0.3llllllll] in
    base 36, so that [.slice(2, 11)] leaves the same nine digits. *)
Definition near_tenth (n : nat) : string := "3llllllll".

(** A record that names a lower item nobody has. *)
Definition stray : store :=
  list_to_map [(1, Item (VStr "x") (VStr "wrong") (VStr "new"))].

(** Two records in a cycle, then a record with a dangling [lowerId]. *)
Definition cycle_then_dangling : store :=
  list_to_map
    [(1, Item (VStr "a") (VStr "b") VUndefined);
     (2, Item (VStr "b") (VStr "a") VUndefined);
     (3, Item (VStr "c") (VStr "zzz") VUndefined)].

(** A record with a dangling [lowerId], then two records in a cycle. *)
Definition dangling_then_cycle : store :=
  list_to_map
    [(1, Item (VStr "c") (VStr "zzz") VUndefined);
     (2, Item (VStr "a") (VStr "b") VUndefined);
     (3, Item (VStr "b") (VStr "a") VUndefined)].

(** Two records on top of the same bottom record. *)
Definition fork : store :=
  list_to_map
    [(1, Item (VStr "a") VUndefined VUndefined);
     (2, Item (VStr "b") (VStr "a") VUndefined);
     (3, Item (VStr "c") (VStr "a") VUndefined)].

(** A chain of two records whose bottom record has the empty string as id. *)
Definition nameless_bottom : store :=
  list_to_map
    [(1, Item (VStr "") VUndefined VUndefined);
     (2, Item (VStr "b") (VStr "") VUndefined)].

(** A chain of three records whose top record has the empty string as id. *)
Definition nameless_top : store :=
  list_to_map
    [(1, Item (VStr "a") VUndefined VUndefined);
     (2, Item (VStr "b") (VStr "a") VUndefined);
     (3, Item (VStr "") (VStr "b") VUndefined)].

(** A board that holds a record pasted from an earlier extraction. *)
Definition pasted : store :=
  list_to_map [(1, Item (VStr "id_i") VUndefined (VStr "ww"))].

(** The board of the tests with every [data] blanked. *)
Definition pets_blank : store := (λ o, Item (id o) (lowerId o) VNull) <$> pets.

(** * Properties *)

Lemma outcome_bind_Ok {A B : Type} (a : A) (k : A → outcome B) : Ok a ≫= k = k a.
Proof. reflexivity. Qed.

(** ** [top] and [add] *)

Lemma at_index_last {A : Type} (l : list A) :
  at_index l (Z.of_nat (length l) - 1) = last l.
Proof.
  unfold at_index. case_bool_decide as Hi.
  - rewrite last_lookup. f_equal. lia.
  - destruct l; [done | simpl in Hi; lia].
Qed.

Lemma top_last st : top st = last (itemsList st).
Proof. apply at_index_last. Qed.

(** C6. After [add(x)] succeeds, [items()] is what it was with [x] appended,
    [top()] is [x], and no object of the store has changed. *)
Theorem add_appends (x : loc) (st st' : state) :
  add x st = (st', Ok ()) →
  items st' = items st ++ [x] ∧ top st' = Some x ∧ objects st' = objects st.
Proof.
  unfold add. intros Hadd.
  destruct (existsb _ _); [done |].
  destruct (match top st with Some _ => _ | None => _ end); [done |].
  injection Hadd as <-. split_and!; [done | | done].
  rewrite top_last. simpl. apply last_snoc.
Qed.

Lemma add_appends_witness :
  ∃ st', add 4 (State pets [1; 3; 2] donkey_chicken 0) = (st', Ok ()) ∧
         items st' = [1; 3; 2; 4] ∧ top st' = Some 4.
Proof.
  eexists. split; [reflexivity |].
  destruct (add_appends 4 (State pets [1; 3; 2] donkey_chicken 0) _ eq_refl)
    as (H1 & H2 & _).
  split; [exact H1 | exact H2].
Defined.

(** C9. When [add(x)] fails, it fails for a duplicate id or for a [lowerId]
    that does not match the top, and the state is what it was. *)
Theorem add_fails_unchanged (x : loc) (st st' : state) (e : error) :
  add x st = (st', Throw e) →
  st' = st ∧
  (e = DuplicateId (id (objects st !!! x)) ∨
   e = BrokenChain (lowerId (objects st !!! x))).
Proof.
  unfold add. intros Hadd.
  destruct (existsb _ _).
  { injection Hadd as <- <-. auto. }
  destruct (match top st with Some _ => _ | None => _ end); [| done].
  injection Hadd as <- <-. auto.
Qed.

Lemma add_fails_unchanged_witness :
  let st := State pets [1; 3; 2] donkey_chicken 0 in
  add 3 st = (st, Throw (DuplicateId (VStr "rabbit"))) ∧
  (st = st ∧
   (DuplicateId (VStr "rabbit") = DuplicateId (id (objects st !!! 3)) ∨
    DuplicateId (VStr "rabbit") = BrokenChain (lowerId (objects st !!! 3)))).
Proof.
  intros st. split; [reflexivity |].
  exact (add_fails_unchanged 3 st st (DuplicateId (VStr "rabbit")) eq_refl).
Defined.

(** C2. On an empty whiteboard [add(x)] appends [x] whatever [x.lowerId]
    is: with no top item the test of [lowerId] is skipped. *)
Theorem add_on_empty (x : loc) (st : state) :
  itemsList st = [] →
  add x st = (State (objects st) [x] (random st) (drawn st), Ok ()).
Proof. unfold add, top. intros ->. reflexivity. Qed.

Lemma add_on_empty_witness :
  lowerId (stray !!! 1) = VStr "wrong" ∧
  add 1 (State stray [] always_half 0) = (State stray [1] always_half 0, Ok ()).
Proof.
  split; [reflexivity |].
  exact (add_on_empty 1 (State stray [] always_half 0) eq_refl).
Defined.

(** The whiteboard that call of [add] leaves is one the constructor
    refuses to build. *)
Lemma stray_board_refused :
  construct stray [1] = Throw (DanglingReference (VStr "wrong")).
Proof. reflexivity. Qed.

(** ** [extract] *)

Section extract_facts.
Implicit Types (st : state) (o : store) (l it : loc).

Lemma extractItem_ok it st st' l :
  extractItem it st = (st', Ok l) →
  ∃ d,
    objects st !! l = None ∧
    objects st' = <[l := Item (drawnId (random st) (drawn st)) VUndefined d]> (objects st) ∧
    itemsList st' = itemsList st ∧
    random st' = random st ∧
    drawn st' = S (drawn st).
Proof.
  unfold extractItem. destruct (find _ _) as [ex |]; [| done].
  simpl. intros [= <- <-]. eexists. split_and!; try done.
  apply (not_elem_of_dom (D := gset loc)), is_fresh.
Qed.

Lemma extractItem_not_ok it st st' (r : outcome loc) :
  extractItem it st = (st', r) →
  (∀ l, r ≠ Ok l) →
  st' = st ∧ r = Throw (NotFound (id (objects st !!! it))).
Proof.
  unfold extractItem. destruct (find _ _) as [ex |].
  - simpl. intros [= <- <-] Hr. by destruct (Hr (fresh (dom (objects st)))).
  - by intros [= <- <-].
Qed.

(** What one call of the callback leaves in place. *)
Lemma extractItem_frame it st st' (r : outcome loc) :
  extractItem it st = (st', r) →
  itemsList st' = itemsList st ∧ random st' = random st ∧
  objects st ⊆ objects st'.
Proof.
  intros Hx. destruct r as [l | e |].
  - destruct (extractItem_ok _ _ _ _ Hx) as (d & Hl & -> & ? & ? & _).
    split_and!; [done | done |]. by apply insert_subseteq.
  - destruct (extractItem_not_ok _ _ _ _ Hx) as [-> _]; done.
  - destruct (extractItem_not_ok _ _ _ _ Hx) as [-> _]; done.
Qed.

Lemma extractMap_frame sel st st' (r : outcome (list loc)) :
  extractMap sel st = (st', r) →
  itemsList st' = itemsList st ∧ random st' = random st ∧
  objects st ⊆ objects st'.
Proof.
  revert st st' r. induction sel as [| it rest IH]; intros st st' r; simpl.
  { by intros [= <- <-]. }
  destruct (extractItem it st) as [st1 r1] eqn:H1.
  destruct (extractItem_frame _ _ _ _ H1) as (Hi1 & Hr1 & Ho1).
  destruct r1 as [l | e |]; try by intros [= <- <-].
  destruct (extractMap rest st1) as [st2 r2] eqn:H2.
  destruct (IH _ _ _ H2) as (Hi2 & Hr2 & Ho2).
  assert (itemsList st2 = itemsList st ∧ random st2 = random st ∧
          objects st ⊆ objects st2) as Hall.
  { split_and!; [congruence | congruence | by etrans]. }
  destruct r2; by intros [= <- <-].
Qed.

(** The copies a successful [map] returns: new objects, all different, in
    the order of the selection, the [k]-th with the id of the [k]-th draw. *)
Lemma extractMap_ok sel st st' out :
  extractMap sel st = (st', Ok out) →
  length out = length sel ∧
  drawn st' = drawn st + length sel ∧
  NoDup out ∧
  (∀ l, l ∈ out → objects st !! l = None) ∧
  id <$> snapshot (objects st') out =
    drawnId (random st) <$> seq (drawn st) (length sel).
Proof.
  revert st st' out. induction sel as [| it rest IH]; intros st st' out; simpl.
  { intros [= <- <-]. simpl. split_and!; [done | lia | constructor | set_solver | done]. }
  destruct (extractItem it st) as [st1 r1] eqn:H1.
  destruct r1 as [l | e |]; try done.
  destruct (extractMap rest st1) as [st2 r2] eqn:H2.
  destruct r2 as [ls | e |]; try done.
  intros [= <- <-].
  destruct (extractItem_ok _ _ _ _ H1) as (d & Hl & Ho1 & Hi1 & Hr1 & Hd1).
  destruct (IH _ _ _ H2) as (Hlen & Hd2 & Hnd & Hfresh & Hids).
  destruct (extractMap_frame _ _ _ _ H2) as (_ & _ & Hsub).
  assert (objects st1 !! l = Some (Item (drawnId (random st) (drawn st)) VUndefined d))
    as Hl1 by (rewrite Ho1; apply lookup_insert_eq).
  split_and!.
  - simpl. by rewrite Hlen.
  - lia.
  - constructor; [| done]. intros Hin. apply Hfresh in Hin. congruence.
  - intros l' [-> | Hin]%elem_of_cons; [done |].
    apply Hfresh in Hin. rewrite Ho1 in Hin.
    by apply lookup_insert_None in Hin as [? _].
  - unfold snapshot in *. rewrite Hr1, Hd1 in Hids.
    cbn [length seq]. rewrite !fmap_cons, Hids. f_equal.
    rewrite lookup_total_alt.
    by rewrite (lookup_weaken _ _ _ _ Hl1 Hsub).
Qed.

Lemma linkStep_other ex o i l : l ∉ ex → linkStep ex o i !! l = o !! l.
Proof.
  intros Hl. unfold linkStep.
  destruct (ex !! i) as [cur |] eqn:Hc; [| done].
  destruct (ex !! (i - 1)) as [prev |]; [| done].
  apply lookup_insert_ne. intros ->. apply Hl.
  by eapply list_elem_of_lookup_2.
Qed.

Lemma linkStep_id ex o i l : id (linkStep ex o i !!! l) = id (o !!! l).
Proof.
  unfold linkStep.
  destruct (ex !! i) as [cur |]; [| done].
  destruct (ex !! (i - 1)) as [prev |]; [| done].
  destruct (decide (cur = l)) as [-> | Hne].
  - by rewrite lookup_total_insert_eq.
  - by rewrite lookup_total_insert_ne.
Qed.

Lemma linkAll_other ex o l : l ∉ ex → linkAll ex o !! l = o !! l.
Proof.
  intros Hl. unfold linkAll. generalize (seq 1 (length ex - 1)) as idx.
  intros idx. revert o. induction idx as [| i idx IH]; intros o; simpl; [done |].
  by rewrite IH, linkStep_other.
Qed.

Lemma linkAll_id ex o l : id (linkAll ex o !!! l) = id (o !!! l).
Proof.
  unfold linkAll. generalize (seq 1 (length ex - 1)) as idx.
  intros idx. revert o. induction idx as [| i idx IH]; intros o; simpl; [done |].
  by rewrite IH, linkStep_id.
Qed.

Lemma extract_unfold sel st :
  extract sel st =
    match extractMap sel st with
    | (st1, Ok out) =>
        (State (linkAll out (objects st1)) (itemsList st1) (random st1) (drawn st1),
         Ok out)
    | r => r
    end.
Proof. reflexivity. Qed.

End extract_facts.

(** C7. Whatever the selection and whether it returns or throws, [extract]
    leaves [this.itemsList] as it was, and every object the store held
    before the call, the records of the whiteboard and those of the
    selection among them, has the fields it had. *)
Theorem extract_preserves (sel : list loc) (st st' : state) (r : outcome (list loc)) :
  extract sel st = (st', r) →
  itemsList st' = itemsList st ∧
  ∀ l x, objects st !! l = Some x → objects st' !! l = Some x.
Proof.
  rewrite extract_unfold.
  destruct (extractMap sel st) as [st1 r1] eqn:Hmap.
  destruct (extractMap_frame _ _ _ _ Hmap) as (Hi & _ & Hsub).
  destruct r1 as [out | e |].
  - intros [= <- <-]. simpl. split; [done |]. intros l x Hl.
    destruct (extractMap_ok _ _ _ _ Hmap) as (_ & _ & _ & Hfresh & _).
    rewrite linkAll_other.
    + by eapply lookup_weaken.
    + intros Hin. apply Hfresh in Hin. congruence.
  - intros [= <- <-]. split; [done |]. intros l x Hl. by eapply lookup_weaken.
  - intros [= <- <-]. split; [done |]. intros l x Hl. by eapply lookup_weaken.
Qed.

Lemma extract_preserves_witness :
  let st := State pets [1; 3; 2; 4] donkey_chicken 0 in
  ∃ st' r, extract [4; 3] st = (st', r) ∧
    itemsList st' = [1; 3; 2; 4] ∧
    objects st' !! 4 = Some (Item (VStr "tortoise") (VStr "cat") (VStr "zz")) ∧
    objects st' !! 3 = Some (Item (VStr "rabbit") (VStr "dog") (VStr "yy")).
Proof.
  intros st. destruct (extract [4; 3] st) as [st' r] eqn:He.
  exists st', r. split; [reflexivity |].
  destruct (extract_preserves [4; 3] st st' r He) as [Hi Ho].
  split; [exact Hi |]. split; apply Ho; reflexivity.
Defined.

Lemma linkAll_snapshot_id (ex out : list loc) (o : store) :
  id <$> snapshot (linkAll ex o) out = id <$> snapshot o out.
Proof.
  unfold snapshot. rewrite <- !list_fmap_compose.
  apply list_fmap_ext. intros i l _. simpl. apply linkAll_id.
Qed.

Lemma drawn_text_inj : Inj (=) (=) (λ s : string, VStr ("id_" +:+ s)).
Proof. intros a b [= ?]. done. Qed.

Lemma drawnId_NoDup (rnd : nat → string) (draws : list nat) :
  NoDup (rnd <$> draws) → NoDup (drawnId rnd <$> draws).
Proof.
  intros Hnd.
  change (drawnId rnd) with ((λ s : string, VStr ("id_" +:+ s)) ∘ rnd).
  rewrite list_fmap_compose.
  by apply (@NoDup_fmap_2 _ _ _ drawn_text_inj).
Qed.

(** A successful [extract] returns one copy per selected record, and the
    [k]-th copy carries the id [generateUniqueId] makes of the [k]-th
    number the call draws from [Math.random]: ["id_"] and the text [random]
    gives for it.  These ids are pairwise distinct when those texts are, and
    none of them is on the whiteboard when none of the ids made is. *)
Theorem extract_ids_drawn (sel : list loc) (st st' : state) (out : list loc) :
  extract sel st = (st', Ok out) →
  let draws := seq (drawn st) (length sel) in
  let ids := id <$> snapshot (objects st') out in
  length out = length sel ∧
  ids = drawnId (random st) <$> draws ∧
  (NoDup (random st <$> draws) → NoDup ids) ∧
  ((∀ n l, n ∈ draws → l ∈ itemsList st →
      id (objects st !!! l) ≠ drawnId (random st) n) →
   ∀ v l, v ∈ ids → l ∈ itemsList st → id (objects st !!! l) ≠ v).
Proof.
  rewrite extract_unfold.
  destruct (extractMap sel st) as [st1 r1] eqn:Hmap.
  destruct r1 as [out1 | e |]; try done.
  intros [= <- <-]. simpl.
  destruct (extractMap_ok _ _ _ _ Hmap) as (Hlen & _ & _ & _ & Hids).
  rewrite linkAll_snapshot_id, Hids.
  split_and!; [done | done | |].
  - apply drawnId_NoDup.
  - intros Hnew v l (n & -> & Hn)%list_elem_of_fmap Hl. by apply Hnew.
Qed.

Lemma extract_ids_drawn_witness :
  let st := State pets [1; 3; 2; 4] donkey_chicken 0 in
  ∃ st', extract [4; 3] st = (st', Ok [5; 6]) ∧
    id <$> snapshot (objects st') [5; 6] = [VStr "id_donkey"; VStr "id_chicken"].
Proof.
  intros st. destruct (extract [4; 3] st) as [st' r] eqn:He.
  assert (r = Ok [5; 6]) as ->.
  { change r with (st', r).2. rewrite <- He. reflexivity. }
  exists st'. split; [reflexivity |].
  destruct (extract_ids_drawn [4; 3] st st' [5; 6] He) as (_ & Hids & _).
  exact Hids.
Defined.

(** C8: the code at a whiteboard that holds a record whose id an earlier
    extraction made (["id_i"], from [Math.random] yielding [0.5]), with
    [Math.random] yielding [0.5] again.  [generateUniqueId] does not look at
    the ids of the whiteboard: the copy gets the id of the record it
    copies, an id the whiteboard already holds. *)
Lemma extract_id_collision :
  let st := State pasted [1] always_half 0 in
  ∃ st', extract [1] st = (st', Ok [2]) ∧
    1 ∈ itemsList st ∧
    id (objects st' !!! 2) = id (objects st !!! 1).
Proof.
  eexists. split; [reflexivity |]. split; [| reflexivity].
  simpl. apply list_elem_of_here.
Qed.

(** Two copies of one call with the same id: [Math.random] yields two
    different numbers whose texts [.slice(2, 11)] cuts to the same nine
    digits. *)
Lemma extract_ids_repeat :
  let st := State pets [1; 3; 2; 4] near_tenth 0 in
  ∃ st', extract [4; 3] st = (st', Ok [5; 6]) ∧
    id (objects st' !!! 5) = VStr "id_3llllllll" ∧
    id (objects st' !!! 6) = VStr "id_3llllllll".
Proof. eexists. split; [reflexivity |]. split; reflexivity. Qed.

(** The links [extract] makes follow the selection: the first copy is the
    bottom record and each later copy is put on the copy made just before
    it, wherever the records they copy are on the whiteboard. *)
Section links_follow_selection.
Implicit Types (ex out : list loc) (idx : list nat) (o : store) (l prev : loc).

Lemma extractMap_unlinked sel st st' out :
  extractMap sel st = (st', Ok out) →
  ∀ l, l ∈ out → lowerId (objects st' !!! l) = VUndefined.
Proof.
  revert st st' out. induction sel as [| it rest IH]; intros st st' out; simpl.
  { intros [= <- <-] l Hl. by apply elem_of_nil in Hl. }
  destruct (extractItem it st) as [st1 r1] eqn:H1.
  destruct r1 as [l1 | e |]; try done.
  destruct (extractMap rest st1) as [st2 r2] eqn:H2.
  destruct r2 as [ls | e |]; try done.
  intros [= <- <-] l [-> | Hl]%elem_of_cons; [| by eapply IH].
  destruct (extractItem_ok _ _ _ _ H1) as (d & _ & Ho1 & _).
  destruct (extractMap_frame _ _ _ _ H2) as (_ & _ & Hsub).
  assert (objects st1 !! l1 = Some (Item (drawnId (random st) (drawn st)) VUndefined d))
    as Hl1 by (rewrite Ho1; apply lookup_insert_eq).
  rewrite lookup_total_alt.
  by rewrite (lookup_weaken _ _ _ _ Hl1 Hsub).
Qed.

Lemma linkStep_lowerId_other ex o i j l :
  NoDup ex → ex !! j = Some l → i ≠ j →
  lowerId (linkStep ex o i !!! l) = lowerId (o !!! l).
Proof.
  intros Hnd Hl Hij. unfold linkStep.
  destruct (ex !! i) as [cur |] eqn:Hc; [| done].
  destruct (ex !! (i - 1)) as [prev |]; [| done].
  assert (cur ≠ l) as Hne.
  { intros ->. apply Hij. by eapply NoDup_lookup. }
  by rewrite lookup_total_insert_ne.
Qed.

Lemma linkStep_lowerId ex o i prev l :
  ex !! i = Some l → ex !! (i - 1) = Some prev →
  lowerId (linkStep ex o i !!! l) = id (o !!! prev).
Proof.
  intros Hl Hp. unfold linkStep. rewrite Hl, Hp.
  by rewrite lookup_total_insert_eq.
Qed.

Lemma links_skip ex idx o j l :
  NoDup ex → ex !! j = Some l → j ∉ idx →
  lowerId (foldl (linkStep ex) o idx !!! l) = lowerId (o !!! l).
Proof.
  intros Hnd Hl. revert o. induction idx as [| i idx IH]; intros o Hj; [done |].
  apply not_elem_of_cons in Hj as [Hne Hj]. simpl.
  rewrite IH by done. by eapply linkStep_lowerId_other.
Qed.

Lemma links_set ex idx o j prev l :
  NoDup ex → ex !! j = Some l → ex !! (j - 1) = Some prev → j ∈ idx →
  lowerId (foldl (linkStep ex) o idx !!! l) = id (o !!! prev).
Proof.
  intros Hnd Hl Hp. revert o. induction idx as [| i idx IH]; intros o Hj.
  { by apply elem_of_nil in Hj. }
  simpl. destruct (decide (j ∈ idx)) as [Hin | Hout].
  - rewrite IH by done. apply linkStep_id.
  - apply elem_of_cons in Hj as [-> | ?]; [| done].
    rewrite (links_skip ex idx _ i l) by done. by apply linkStep_lowerId.
Qed.

Lemma extract_follows_selection sel st st' out :
  extract sel st = (st', Ok out) →
  (∀ l, out !! 0 = Some l → lowerId (objects st' !!! l) = VUndefined) ∧
  (∀ i prev l, out !! i = Some prev → out !! S i = Some l →
     lowerId (objects st' !!! l) = id (objects st' !!! prev)).
Proof.
  rewrite extract_unfold.
  destruct (extractMap sel st) as [st1 r1] eqn:Hmap.
  destruct r1 as [out1 | e |]; try done.
  intros [= <- <-]. simpl.
  destruct (extractMap_ok _ _ _ _ Hmap) as (_ & _ & Hnd & _ & _).
  split.
  - intros l Hl. unfold linkAll.
    rewrite (links_skip out1 _ _ 0 l Hnd Hl).
    + eapply extractMap_unlinked; [done |]. by eapply list_elem_of_lookup_2.
    + rewrite elem_of_seq. lia.
  - intros i prev l Hp Hl. rewrite linkAll_id. unfold linkAll.
    apply (links_set out1 _ _ (S i)); [done | done | |].
    + by replace (S i - 1) with i by lia.
    + apply lookup_lt_Some in Hl. rewrite elem_of_seq. lia.
Qed.

End links_follow_selection.

(** C1: the code at the selection of the test of [extract].  On the board
    [dog, rabbit, cat, tortoise] the selection names [tortoise] before
    [rabbit]; the copy of [tortoise] (data [zz]) becomes the bottom record
    and the copy of [rabbit] (data [yy]) is put on top of it, the other way
    round from the whiteboard. *)
Theorem extract_links_in_selection_order :
  construct pets [1; 2; 3; 4] = Ok [1; 3; 2; 4] ∧
  let st := State pets [1; 3; 2; 4] donkey_chicken 0 in
  ∃ st', extract [4; 3] st = (st', Ok [5; 6]) ∧
    snapshot (objects st') [5; 6] =
      [Item (VStr "id_donkey") VUndefined (VStr "zz");
       Item (VStr "id_chicken") (VStr "id_donkey") (VStr "yy")].
Proof.
  split; [reflexivity |]. eexists. split; reflexivity.
Qed.

(** ** The constructor: the [Map] of the first pass *)

Section buildMap_facts.
Context (h : store).
Implicit Types (items : list loc) (m : gmap val loc).

Lemma buildMap_ok items m0 m :
  buildMap h items m0 = Ok m →
  NoDup (idOf h <$> items) ∧
  (∀ it, it ∈ items → m0 !! idOf h it = None) ∧
  size m = size m0 + length items ∧
  (∀ k l, m !! k = Some l ↔ m0 !! k = Some l ∨ (l ∈ items ∧ idOf h l = k)).
Proof.
  revert m0. induction items as [| it rest IH]; intros m0; simpl.
  - intros [= ->]. split_and!; [constructor | set_solver | lia |].
    intros k l. set_solver.
  - destruct (m0 !! idOf h it) eqn:Hit; [done |]. intros Hb.
    destruct (IH _ Hb) as (Hnd & Hfree & Hsize & Hlook).
    assert (∀ r, r ∈ rest → idOf h r ≠ idOf h it ∧ m0 !! idOf h r = None) as Hrest.
    { intros r Hr. specialize (Hfree r Hr).
      by apply lookup_insert_None in Hfree as [? ?]. }
    split_and!.
    + constructor; [| done].
      intros (r & Heq & Hr)%list_elem_of_fmap.
      destruct (Hrest r Hr) as [Hne _]. congruence.
    + intros r [-> | Hr]%elem_of_cons; [done |]. by apply Hrest.
    + rewrite Hsize, map_size_insert_None by done. simpl. lia.
    + intros k l. rewrite Hlook, lookup_insert_Some, elem_of_cons.
      split.
      * intros [[[<- <-] | [? ?]] | [? ?]]; eauto.
      * intros [Hl | [[-> | Hr] <-]]; [| by eauto | by eauto].
        left. right. split; [| done]. intros <-. congruence.
Qed.

Lemma buildMap_unique items m0 :
  NoDup (idOf h <$> items) →
  (∀ it, it ∈ items → m0 !! idOf h it = None) →
  ∃ m, buildMap h items m0 = Ok m.
Proof.
  revert m0. induction items as [| it rest IH]; intros m0; simpl.
  { eauto. }
  intros [Hit Hnd]%NoDup_cons Hfree.
  rewrite (Hfree it) by apply list_elem_of_here.
  apply IH; [done |]. intros r Hr. apply lookup_insert_None. split.
  - apply Hfree. by apply list_elem_of_further.
  - intros Heq. apply Hit. rewrite Heq. by apply list_elem_of_fmap_2.
Qed.

Lemma buildMap_not_fuel items m0 : buildMap h items m0 ≠ OutOfFuel.
Proof.
  revert m0. induction items as [| it rest IH]; intros m0; simpl; [done |].
  destruct (m0 !! idOf h it); [done | apply IH].
Qed.

(** The [Map] the first pass leaves when it finds no duplicate. *)
Lemma buildMap_empty items m :
  buildMap h items ∅ = Ok m →
  NoDup (idOf h <$> items) ∧
  size m = length items ∧
  coherent h m ∧
  (∀ it, it ∈ items → m !! idOf h it = Some it) ∧
  (∀ k l, m !! k = Some l → l ∈ items).
Proof.
  intros (Hnd & _ & Hsize & Hlook)%buildMap_ok.
  rewrite map_size_empty in Hsize.
  split_and!; [done | done | | |].
  - intros k l [Hl | [_ ?]]%Hlook; [by rewrite lookup_empty in Hl | done].
  - intros it Hit. apply Hlook. eauto.
  - intros k l [Hl | [? _]]%Hlook; [by rewrite lookup_empty in Hl | done].
Qed.

End buildMap_facts.

(** ** The constructor: the walk of [checkCycle] *)

Section walk_facts.
Context (h : store) (m : gmap val loc).
Implicit Types (it lower : loc) (v : gset val) (f n : nat).

Lemma checkCycle_S f it v :
  checkCycle h m (S f) it v =
    if bool_decide (idOf h it ∈ v) then Throw (CycleDetected (idOf h it))
    else
      v' ← match lowerItem h m it with
           | Some lower => checkCycle h m f lower (v ∪ {[idOf h it]})
           | None => Ok (v ∪ {[idOf h it]})
           end;
      Ok (v' ∖ {[idOf h it]}).
Proof. simpl. unfold lowerItem. by destruct (truthy (lowerOf h it)). Qed.

Lemma addItemToOrder_S f it (st : list loc * gset val) :
  addItemToOrder h m (S f) it st =
    if bool_decide (idOf h it ∈ st.2) then Ok st
    else
      st' ← match lowerItem h m it with
            | Some lower => addItemToOrder h m f lower st
            | None => Ok st
            end;
      Ok (st'.1 ++ [it], st'.2 ∪ {[idOf h it]}).
Proof. simpl. unfold lowerItem. by destruct (truthy (lowerOf h it)). Qed.

Lemma descends_functional it n n' :
  descends h m it n → descends h m it n' → n = n'.
Proof.
  intros Hn. revert n'. induction Hn as [it Hb | it lower n Hl _ IH];
    intros n' Hn'; inversion Hn'; subst; try congruence.
  f_equal. apply IH. congruence.
Qed.

(** A walk that returns has put [visited] back as it found it, and has
    made fewer moves than it had fuel. *)
Lemma checkCycle_returns f it v v' :
  checkCycle h m f it v = Ok v' →
  v' = v ∧ ∃ n, n < f ∧ descends h m it n.
Proof.
  revert it v v'. induction f as [| f IH]; intros it v v'; [done |].
  rewrite checkCycle_S. case_bool_decide as Hin; [done |].
  destruct (lowerItem h m it) as [lower |] eqn:Hl.
  - destruct (checkCycle h m f lower _) as [v1 | |] eqn:Hrec; try done.
    simpl. intros [= <-].
    destruct (IH _ _ _ Hrec) as (-> & n & Hn & Hd).
    split; [set_solver |]. exists (S n). split; [lia |].
    by eapply descends_lower.
  - simpl. intros [= <-]. split; [set_solver |].
    exists 0. split; [lia |]. by apply descends_bottom.
Qed.

(** A walk throws nothing but the cycle error. *)
Lemma checkCycle_throws f it v e :
  checkCycle h m f it v = Throw e → ∃ k, e = CycleDetected k.
Proof.
  revert it v. induction f as [| f IH]; intros it v; [done |].
  rewrite checkCycle_S. case_bool_decide as Hin.
  { intros [= <-]. eauto. }
  destruct (lowerItem h m it) as [lower |] eqn:Hl; [| done].
  destruct (checkCycle h m f lower _) as [v1 | e1 |] eqn:Hrec; try done.
  simpl. intros [= <-]. eauto.
Qed.

Context (Hcoh : coherent h m).

Lemma lowerItem_indexed it lower :
  lowerItem h m it = Some lower → m !! idOf h lower = Some lower.
Proof.
  unfold lowerItem. destruct (truthy _); [| done].
  intros Hl. by rewrite (Hcoh _ _ Hl).
Qed.

Lemma indexed_same_id x y :
  m !! idOf h x = Some x → m !! idOf h y = Some y →
  idOf h x = idOf h y → x = y.
Proof. intros Hx Hy Heq. rewrite Heq in Hx. congruence. Qed.

(** Each move adds an id of the [Map] to [visited], so the walk cannot
    make more moves than the [Map] has ids outside [visited]. *)
Lemma checkCycle_fuel f it v :
  m !! idOf h it = Some it →
  size (dom m ∖ v) < f →
  checkCycle h m f it v ≠ OutOfFuel.
Proof.
  revert it v. induction f as [| f IH]; intros it v Hit Hsize; [lia |].
  rewrite checkCycle_S. case_bool_decide as Hin; [done |].
  destruct (lowerItem h m it) as [lower |] eqn:Hl; [| done].
  assert (checkCycle h m f lower (v ∪ {[idOf h it]}) ≠ OutOfFuel) as Hrec.
  { apply IH; [by eapply lowerItem_indexed |].
    assert (dom m ∖ (v ∪ {[idOf h it]}) ⊂ dom m ∖ v) as Hsub.
    { assert (idOf h it ∈ dom m) by (apply elem_of_dom; eauto).
      set_solver. }
    apply subset_size in Hsub. lia. }
  by destruct (checkCycle h m f lower _).
Qed.

(** A walk that ends returns, provided [visited] holds no id of an item as
    close to the bottom as the one it starts from. *)
Lemma checkCycle_descends it n :
  descends h m it n →
  ∀ f v,
    m !! idOf h it = Some it →
    n < f →
    (∀ q j, m !! idOf h q = Some q → descends h m q j → j ≤ n →
            idOf h q ∉ v) →
    checkCycle h m f it v = Ok v.
Proof.
  induction 1 as [it Hb | it lower n Hl Hd IH]; intros f v Hit Hf Hv.
  - destruct f as [| f]; [lia |]. rewrite checkCycle_S, Hb.
    rewrite bool_decide_eq_false_2.
    + simpl. f_equal.
      assert (idOf h it ∉ v) by (eapply Hv; [done | by apply descends_bottom | lia]).
      set_solver.
    + eapply Hv; [done | by apply descends_bottom | lia].
  - destruct f as [| f]; [lia |]. rewrite checkCycle_S, Hl.
    assert (idOf h it ∉ v) as Hin.
    { eapply Hv; [done | by eapply descends_lower | lia]. }
    rewrite bool_decide_eq_false_2 by done.
    rewrite (IH f (v ∪ {[idOf h it]})).
    + simpl. f_equal. set_solver.
    + by eapply lowerItem_indexed.
    + lia.
    + intros q j Hq Hqd Hj. apply not_elem_of_union. split.
      * eapply Hv; [done | done | lia].
      * intros ->%elem_of_singleton%(indexed_same_id _ _ Hq Hit).
        assert (j = S n) by (eapply descends_functional; [done | by eapply descends_lower]).
        lia.
Qed.

(** More fuel does not change the outcome of a walk that had enough. *)
Lemma checkCycle_more_fuel f f' it v :
  checkCycle h m f it v ≠ OutOfFuel →
  f ≤ f' →
  checkCycle h m f' it v = checkCycle h m f it v.
Proof.
  revert f' it v. induction f as [| f IH]; intros f' it v Hne Hle; [done |].
  destruct f' as [| f']; [lia |].
  rewrite !checkCycle_S in *. case_bool_decide as Hin; [done |].
  destruct (lowerItem h m it) as [lower |] eqn:Hl; [| done].
  rewrite (IH f' lower); [done | | lia].
  intros Hrec. by rewrite Hrec in Hne.
Qed.

(** From an empty [visited] and with more fuel than the [Map] has ids, a
    walk from an item of the [Map] returns exactly when it ends, and
    throws the cycle error when it does not. *)
Lemma checkCycle_decides f it :
  m !! idOf h it = Some it →
  size m < f →
  (checkCycle h m f it ∅ = Ok ∅ ∧ ∃ n, n < f ∧ descends h m it n) ∨
  ((∃ k, checkCycle h m f it ∅ = Throw (CycleDetected k)) ∧
   ¬ ∃ n, descends h m it n).
Proof.
  intros Hit Hf.
  destruct (checkCycle h m f it ∅) as [v | e |] eqn:Hc.
  - left. destruct (checkCycle_returns _ _ _ _ Hc) as (-> & Hn). eauto.
  - right. destruct (checkCycle_throws _ _ _ _ Hc) as [k ->].
    split; [eauto |]. intros [n Hn].
    assert (checkCycle h m (f + S n) it ∅ = Throw (CycleDetected k)) as Hmore.
    { rewrite <- Hc. apply checkCycle_more_fuel; [by rewrite Hc | lia]. }
    rewrite (checkCycle_descends _ _ Hn) in Hmore; [done | done | lia |].
    set_solver.
  - exfalso. eapply (checkCycle_fuel f it ∅); [done | | done].
    rewrite difference_empty_L, size_dom. done.
Qed.

End walk_facts.

(** ** The constructor: the second pass *)

Section pass_facts.
Context (h : store) (m : gmap val loc) (Hcoh : coherent h m).
Context (f : nat) (Hfuel : size m < f).
Implicit Types (it : loc) (v : gset val) (ord : list loc).

Local Abbreviation indexed it := (m !! idOf h it = Some it).

Lemma validate_cons it rest v :
  validate h m f (it :: rest) v =
    if dangling h m it then Throw (DanglingReference (lowerOf h it))
    else v' ← checkCycle h m f it v; validate h m f rest v'.
Proof. reflexivity. Qed.

Lemma validate_returns its v v' :
  validate h m f its v = Ok v' →
  v' = v ∧
  ∀ it, it ∈ its → dangling h m it = false ∧ ∃ n, n < f ∧ descends h m it n.
Proof.
  revert v. induction its as [| it rest IH]; intros v.
  { intros [= <-]. split; [done |]. by intros it Hit%elem_of_nil. }
  rewrite validate_cons. destruct (dangling h m it) eqn:Hd; [done |].
  destruct (checkCycle h m f it v) as [v1 | |] eqn:Hc; try done. simpl.
  intros Hrest. destruct (checkCycle_returns _ _ _ _ _ _ Hc) as (-> & Hn).
  destruct (IH _ Hrest) as (-> & Hall). split; [done |].
  intros x [-> | Hx]%elem_of_cons; [done | by apply Hall].
Qed.

(** Records that pass both tests leave the pass where it was. *)
Lemma validate_passes pre rest :
  (∀ p, p ∈ pre →
     indexed p ∧ dangling h m p = false ∧ ∃ n, descends h m p n) →
  validate h m f (pre ++ rest) ∅ = validate h m f rest ∅.
Proof.
  induction pre as [| p pre IH]; intros Hpre; [done |].
  destruct (Hpre p) as (Hp & Hd & Hn); [apply list_elem_of_here |].
  rewrite <- app_comm_cons, validate_cons, Hd.
  destruct (checkCycle_decides h m Hcoh f p Hp Hfuel) as [[-> _] | [_ Hno]];
    [| done].
  simpl. apply IH. intros q Hq. apply Hpre. by apply list_elem_of_further.
Qed.

(** When some record before the first dangling one starts a walk that
    never ends, the pass throws the cycle error. *)
Lemma validate_cycle pre rest :
  (∀ p, p ∈ pre → indexed p ∧ dangling h m p = false) →
  ¬ (∀ p, p ∈ pre → ∃ n, descends h m p n) →
  ∃ k, validate h m f (pre ++ rest) ∅ = Throw (CycleDetected k).
Proof.
  induction pre as [| p pre IH]; intros Hpre Hno.
  { destruct Hno. by intros p Hp%elem_of_nil. }
  destruct (Hpre p) as (Hp & Hd); [apply list_elem_of_here |].
  rewrite <- app_comm_cons, validate_cons, Hd.
  destruct (checkCycle_decides h m Hcoh f p Hp Hfuel)
    as [[-> (n & _ & Hn)] | [[k ->] _]].
  - simpl. apply IH.
    + intros q Hq. apply Hpre. by apply list_elem_of_further.
    + intros Hall. apply Hno. intros q [-> | Hq]%elem_of_cons; eauto.
  - simpl. eauto.
Qed.

Lemma validate_not_fuel its :
  (∀ it, it ∈ its → indexed it) →
  validate h m f its ∅ ≠ OutOfFuel.
Proof.
  induction its as [| it rest IH]; intros Hits; [done |].
  rewrite validate_cons. destruct (dangling h m it); [done |].
  destruct (checkCycle_decides h m Hcoh f it) as [[-> _] | [[k ->] _]];
    [apply Hits, list_elem_of_here | done | | done].
  simpl. apply IH. intros x Hx. apply Hits. by apply list_elem_of_further.
Qed.

End pass_facts.

(** ** The constructor: [addItemToOrder] *)

Section order_facts.
Context (h : store) (m : gmap val loc) (Hcoh : coherent h m).
Implicit Types (it : loc) (ord : list loc).

Local Abbreviation indexed it := (m !! idOf h it = Some it).
Local Abbreviation ids l := (list_to_set (idOf h <$> l) : gset val).

Lemma ids_snoc ord it : ids (ord ++ [it]) = ids ord ∪ {[idOf h it]}.
Proof.
  rewrite fmap_app, list_to_set_app_L. simpl. by rewrite union_empty_r_L.
Qed.

Lemma ids_indexed ord it :
  (∀ x, x ∈ ord → indexed x) → indexed it →
  idOf h it ∈ ids ord → it ∈ ord.
Proof.
  intros Hord Hit (x & Heq & Hx)%elem_of_list_to_set%list_elem_of_fmap.
  by rewrite (indexed_same_id h m it x Hit (Hord x Hx) Heq).
Qed.

(** One call of [addItemToOrder] on an item whose walk ends: it returns,
    and extends [orderedItems] by items of the [Map] not yet there, [it]
    the last of them. *)
Lemma addItemToOrder_places it n :
  descends h m it n →
  ∀ g ord,
    n < g → indexed it →
    NoDup (idOf h <$> ord) → (∀ x, x ∈ ord → indexed x) →
    ∃ new,
      addItemToOrder h m g it (ord, ids ord) = Ok (ord ++ new, ids (ord ++ new)) ∧
      NoDup (idOf h <$> (ord ++ new)) ∧
      (∀ x, x ∈ new → indexed x ∧ ∃ j, j ≤ n ∧ descends h m x j) ∧
      it ∈ ord ++ new.
Proof.
  induction 1 as [it Hb | it lower n Hl Hd IH];
    intros g ord Hg Hit Hnd Hord; (destruct g as [| g]; [lia |]);
    rewrite addItemToOrder_S; cbn [snd]; case_bool_decide as Hin.
  1, 3: exists []; rewrite app_nil_r; split_and!;
    [done | done | by intros x Hx%elem_of_nil | by apply ids_indexed].
  - rewrite Hb. simpl. exists [it]. rewrite ids_snoc.
    split_and!; [done | | | rewrite !elem_of_app, list_elem_of_singleton; auto].
    + rewrite fmap_app. apply NoDup_app. split_and!; [done | | apply NoDup_singleton].
      intros k Hk ->%list_elem_of_singleton. apply Hin.
      by apply elem_of_list_to_set.
    + intros x ->%list_elem_of_singleton. split; [done |].
      exists 0. split; [lia | by apply descends_bottom].
  - rewrite Hl.
    destruct (IH g ord) as (new & -> & Hnd' & Hnew & _);
      [lia | by eapply lowerItem_indexed | done | done |].
    simpl. exists (new ++ [it]). rewrite app_assoc, ids_snoc.
    split_and!; [done | | | rewrite !elem_of_app, list_elem_of_singleton; auto].
    + rewrite fmap_app. apply NoDup_app. split_and!; [done | | apply NoDup_singleton].
      intros k Hk ->%list_elem_of_singleton.
      apply list_elem_of_fmap in Hk as (x & Heq & [Hx | Hx]%elem_of_app).
      * apply Hin, elem_of_list_to_set. rewrite Heq. by apply list_elem_of_fmap_2.
      * destruct (Hnew x Hx) as (Hxi & j & Hj & Hxd).
        rewrite <- (indexed_same_id h m it x Hit Hxi Heq) in Hxd.
        assert (j = S n) by (eapply descends_functional; [done | by eapply descends_lower]).
        lia.
    + intros x [Hx | ->%list_elem_of_singleton]%elem_of_app.
      * destruct (Hnew x Hx) as (? & j & ? & ?). split; [done |].
        exists j. split; [lia | done].
      * split; [done |]. exists (S n). split; [lia | by eapply descends_lower].
Qed.

(** The third pass over items whose walks end within the fuel. *)
Lemma linearize_places f its :
  ∀ ord,
    (∀ it, it ∈ its → indexed it ∧ ∃ n, n < f ∧ descends h m it n) →
    NoDup (idOf h <$> ord) → (∀ x, x ∈ ord → indexed x) →
    ∃ new,
      linearize h m f its (ord, ids ord) = Ok (ord ++ new, ids (ord ++ new)) ∧
      NoDup (idOf h <$> (ord ++ new)) ∧
      (∀ x, x ∈ new → indexed x) ∧
      (∀ it, it ∈ its → it ∈ ord ++ new).
Proof.
  induction its as [| it rest IH]; intros ord Hits Hnd Hord.
  { exists []. rewrite app_nil_r. split_and!; [done | done | |];
      by intros x Hx%elem_of_nil. }
  destruct (Hits it) as (Hit & n & Hn & Hd); [apply list_elem_of_here |].
  destruct (addItemToOrder_places it n Hd f ord Hn Hit Hnd Hord)
    as (new1 & Hadd & Hnd1 & Hnew1 & Hin1).
  destruct (IH (ord ++ new1)) as (new2 & Hlin & Hnd2 & Hnew2 & Hin2).
  { intros x Hx. apply Hits. by apply list_elem_of_further. }
  { done. }
  { intros x [Hx | Hx]%elem_of_app; [by apply Hord | by apply Hnew1]. }
  exists (new1 ++ new2). simpl. rewrite Hadd. simpl. rewrite app_assoc.
  split_and!; [done | done | |].
  - intros x [Hx | Hx]%elem_of_app; [by apply Hnew1 | by apply Hnew2].
  - intros x [-> | Hx]%elem_of_cons; [| by apply Hin2].
    rewrite elem_of_app. by left.
Qed.

End order_facts.

(** ** The constructor as a whole *)

Lemma construct_unfold (h : store) (items : list loc) :
  construct h items =
    (m ← buildMap h items ∅;
     _ ← validate h m (S (length items)) items ∅;
     st ← linearize h m (S (length items)) items ([], ∅);
     Ok st.1).
Proof. reflexivity. Qed.

(** What a constructor that returns has done: the first pass found the ids
    pairwise distinct, the second found every walk ending, and the third
    put every item of the input in [orderedItems] once. *)
Lemma construct_returns (h : store) (items ord : list loc) :
  construct h items = Ok ord →
  ∃ m, buildMap h items ∅ = Ok m ∧
       (∀ it, it ∈ items → dangling h m it = false ∧ ∃ n, descends h m it n) ∧
       items ≡ₚ ord ∧
       NoDup (idOf h <$> ord).
Proof.
  rewrite construct_unfold.
  destruct (buildMap h items ∅) as [m | |] eqn:Hb; try done. simpl.
  destruct (buildMap_empty _ _ _ Hb) as (Hnd & Hsize & Hcoh & Hidx & Hrange).
  destruct (validate h m _ items ∅) as [v | |] eqn:Hv; try done. simpl.
  destruct (validate_returns _ _ _ _ _ _ Hv) as (-> & Hwalks).
  destruct (linearize_places h m Hcoh (S (length items)) items []) as
    (new & Hlin & Hnd' & Hnew & Hall).
  { intros it Hit. destruct (Hwalks it Hit) as (_ & n & Hn & Hd). eauto. }
  { constructor. }
  { by intros x Hx%elem_of_nil. }
  change (list_to_set (idOf h <$> [])) with (∅ : gset val) in Hlin.
  rewrite Hlin. simpl. intros [= <-]. exists m. split_and!; [done | | | done].
  - intros it Hit. destruct (Hwalks it Hit) as (? & n & _ & ?). eauto.
  - apply NoDup_Permutation.
    + by eapply NoDup_fmap_1.
    + by eapply NoDup_fmap_1.
    + intros x. split; [by apply Hall |]. intros Hx.
      eapply Hrange. by apply Hnew.
Qed.

(** The fuel of [construct] is enough: the constructor returns or throws. *)
Theorem construct_total (h : store) (items : list loc) :
  construct h items ≠ OutOfFuel.
Proof.
  rewrite construct_unfold.
  destruct (buildMap h items ∅) as [m | |] eqn:Hb; [| done |].
  2: { by apply buildMap_not_fuel in Hb. }
  simpl.
  destruct (buildMap_empty _ _ _ Hb) as (Hnd & Hsize & Hcoh & Hidx & Hrange).
  assert (size m < S (length items)) as Hfuel by lia.
  destruct (validate h m _ items ∅) as [v | |] eqn:Hv; [| done |].
  2: { by apply (validate_not_fuel h m Hcoh _ Hfuel) in Hv. }
  simpl.
  destruct (validate_returns _ _ _ _ _ _ Hv) as (-> & Hwalks).
  destruct (linearize_places h m Hcoh (S (length items)) items []) as
    (new & Hlin & _).
  { intros it Hit. destruct (Hwalks it Hit) as (_ & n & Hn & Hd). eauto. }
  { constructor. }
  { by intros x Hx%elem_of_nil. }
  change (list_to_set (idOf h <$> [])) with (∅ : gset val) in Hlin.
  by rewrite Hlin.
Qed.

Lemma no_branching_perm (h : store) (l k : list loc) :
  l ≡ₚ k → no_branching h l → no_branching h k.
Proof.
  intros Hp Hl x y Hx Hy. apply Hl; by rewrite Hp.
Qed.

(** C4, as the code has it.  The constructor has no test for two records on
    top of the same one: the sequence of a whiteboard it returns is the
    input rearranged, with pairwise distinct ids, so it is free of branching
    exactly when the input is. *)
Theorem construct_keeps_branching (h : store) (items ord : list loc) :
  construct h items = Ok ord →
  items ≡ₚ ord ∧
  NoDup (idOf h <$> ord) ∧
  (no_branching h ord ↔ no_branching h items).
Proof.
  intros (m & _ & _ & Hp & Hnd)%construct_returns.
  split_and!; [done | done |].
  split; apply no_branching_perm; by rewrite Hp.
Qed.

Lemma construct_keeps_branching_witness :
  [1; 2; 3; 4] ≡ₚ [1; 3; 2; 4] ∧
  NoDup (idOf pets <$> [1; 3; 2; 4]) ∧
  (no_branching pets [1; 3; 2; 4] ↔ no_branching pets [1; 2; 3; 4]).
Proof. exact (construct_keeps_branching pets [1; 2; 3; 4] [1; 3; 2; 4] eq_refl). Defined.

(** C4, as stated, fails: the constructor accepts two records on top of the
    same bottom record. *)
Lemma construct_accepts_fork :
  construct fork [1; 2; 3] = Ok [1; 2; 3] ∧ ¬ no_branching fork [1; 2; 3].
Proof.
  split; [reflexivity |]. intros Hnb.
  apply (Hnb 2 3); [set_solver | set_solver | done | done | reflexivity].
Qed.

(** ** The existence test and the walks, record by record *)

Lemma buildMap_has (h : store) (items : list loc) (m : gmap val loc) :
  buildMap h items ∅ = Ok m →
  ∀ k, is_Some (m !! k) ↔ k ∈ idOf h <$> items.
Proof.
  intros (_ & _ & _ & Hlook)%buildMap_ok k. rewrite list_elem_of_fmap. split.
  - intros [l [Hl | [? ?]]%Hlook]; [by rewrite lookup_empty in Hl | eauto].
  - intros (l & -> & Hl). exists l. apply Hlook. eauto.
Qed.

Lemma dangling_true (h : store) (items : list loc) (m : gmap val loc) (it : loc) :
  buildMap h items ∅ = Ok m →
  dangling h m it = true ↔
  truthy (lowerOf h it) = true ∧ lowerOf h it ∉ idOf h <$> items.
Proof.
  intros Hb. unfold dangling.
  rewrite andb_true_iff, negb_true_iff, bool_decide_eq_false.
  by rewrite (buildMap_has _ _ _ Hb).
Qed.

(** C3, as the code has it.  The second pass takes the records in input
    order and, for each, tests that its [lowerId] exists and at once walks
    down from it.  So when the ids are pairwise distinct and [x] is the
    first record whose truthy [lowerId] is the id of no record, the
    constructor throws: the dangling reference error when the walk from each
    record before [x] ends, whatever cycles the records after [x] form, and
    the cycle error when some record before [x] starts a walk that does not
    end. *)
Theorem dangling_after_walks (h : store) (pre : list loc) (x : loc) (post : list loc) :
  let items := pre ++ x :: post in
  NoDup (idOf h <$> items) →
  truthy (lowerOf h x) = true →
  lowerOf h x ∉ idOf h <$> items →
  (∀ p, p ∈ pre → truthy (lowerOf h p) = true →
        lowerOf h p ∈ idOf h <$> items) →
  ∃ m, buildMap h items ∅ = Ok m ∧
    ((∀ p, p ∈ pre → ∃ n, descends h m p n) →
       construct h items = Throw (DanglingReference (lowerOf h x))) ∧
    (¬ (∀ p, p ∈ pre → ∃ n, descends h m p n) →
       ∃ k, construct h items = Throw (CycleDetected k)).
Proof.
  intros items Hnd Hx Hxno Hpre.
  destruct (buildMap_unique h items ∅ Hnd) as [m Hb]; [done |].
  exists m. split; [done |].
  destruct (buildMap_empty _ _ _ Hb) as (_ & Hsize & Hcoh & Hidx & _).
  assert (size m < S (length items)) as Hfuel by lia.
  assert (dangling h m x = true) as Hxd by (by apply (dangling_true h items)).
  assert (∀ p, p ∈ pre → m !! idOf h p = Some p ∧ dangling h m p = false) as Hpre'.
  { intros p Hp. split.
    - apply Hidx. unfold items. rewrite elem_of_app. by left.
    - apply not_true_is_false. intros [? ?]%(dangling_true h items); [| done].
      naive_solver. }
  rewrite construct_unfold, Hb. simpl.
  set (f := S (length items)) in *. clearbody f. subst items. split.
  - intros Hwalks. rewrite (validate_passes h m Hcoh _ Hfuel).
    + by rewrite validate_cons, Hxd.
    + intros p Hp. destruct (Hpre' p Hp). eauto.
  - intros Hno.
    destruct (validate_cycle h m Hcoh _ Hfuel pre (x :: post) Hpre' Hno) as [k ->].
    simpl. eauto.
Qed.

Lemma dangling_after_walks_witness :
  construct dangling_then_cycle [1; 2; 3] = Throw (DanglingReference (VStr "zzz")).
Proof.
  destruct (dangling_after_walks dangling_then_cycle [] 1 [2; 3])
    as (m & _ & Hd & _).
  - simpl. apply (bool_decide_unpack _). by vm_compute.
  - reflexivity.
  - apply (bool_decide_unpack _). by vm_compute.
  - by intros p Hp%elem_of_nil.
  - apply Hd. by intros p Hp%elem_of_nil.
Defined.

(** C3, as stated, fails: here the ids are pairwise distinct and the third
    record names a lower item that does not exist, but the first two form a
    cycle and the walk from the first one is made before the third record
    is looked at. *)
Lemma cycle_reported_before_dangling :
  NoDup (idOf cycle_then_dangling <$> [1; 2; 3]) ∧
  lowerOf cycle_then_dangling 3 = VStr "zzz" ∧
  (VStr "zzz" ∉ idOf cycle_then_dangling <$> [1; 2; 3]) ∧
  construct cycle_then_dangling [1; 2; 3] = Throw (CycleDetected (VStr "a")).
Proof.
  split_and!; [| reflexivity | | reflexivity].
  - apply (bool_decide_unpack _). by vm_compute.
  - apply (bool_decide_unpack _). by vm_compute.
Qed.

(** ** The constructor on a single chain *)

Lemma chained_lookup (h : store) (c : list loc) (below : val) (k : nat) (r r' : loc) :
  chained h below c →
  c !! k = Some r' → c !! S k = Some r →
  lowerOf h r = idOf h r'.
Proof.
  revert below k. induction c as [| a c IH]; intros below k; [done |].
  intros [_ Hc]. destruct k as [| k]; simpl.
  - intros [= ->]. destruct c as [| b c]; [done |]. intros [= ->]. by destruct Hc.
  - by apply (IH (idOf h a)).
Qed.

Section chain_facts.
Context (h : store) (m : gmap val loc) (c : list loc).
Context (Hidx : ∀ r, r ∈ c → m !! idOf h r = Some r).
Context (Hnd : NoDup (idOf h <$> c)).
Context (Hch : chained h VUndefined c).
Context (Htruthy : ∀ k r, c !! k = Some r → S k < length c →
                           truthy (idOf h r) = true).
Implicit Types (r : loc) (k j g : nat).

Local Abbreviation ids l := (list_to_set (idOf h <$> l) : gset val).

Lemma chain_bottom r : c !! 0 = Some r → lowerItem h m r = None.
Proof using Hch.
  clear Hidx Hnd Htruthy. unfold lowerItem.
  destruct c as [| a c']; [done |]. intros [= ->].
  destruct Hch as [-> _]. done.
Qed.

Lemma chain_lower k r r' :
  c !! k = Some r' → c !! S k = Some r → lowerItem h m r = Some r'.
Proof using Hch Hidx Htruthy.
  clear Hnd. intros Hr' Hr. unfold lowerItem.
  rewrite (chained_lookup h c _ k r r' Hch Hr' Hr).
  rewrite (Htruthy k r' Hr') by (by apply lookup_lt_Some in Hr).
  apply Hidx. by eapply list_elem_of_lookup_2.
Qed.

Lemma chain_before k r : c !! S k = Some r → ∃ r', c !! k = Some r'.
Proof using Type.
  clear. intros Hr. apply lookup_lt_is_Some.
  apply lookup_lt_Some in Hr. lia.
Qed.

(** The [k]-th record of the chain is [k] moves from the bottom, and its
    [lowerId] exists. *)
Lemma chain_descends k r : c !! k = Some r → descends h m r k.
Proof using Hch Hidx Htruthy.
  clear Hnd. revert r. induction k as [| k IH]; intros r Hr.
  - apply descends_bottom. by apply chain_bottom.
  - destruct (chain_before k r Hr) as [r' Hr'].
    eapply descends_lower; [by eapply chain_lower | by apply IH].
Qed.

Lemma chain_not_dangling k r : c !! k = Some r → dangling h m r = false.
Proof using Hch Hidx Htruthy.
  clear Hnd. intros Hr. unfold dangling. destruct k as [| k].
  - destruct c as [| a c']; [done |]. injection Hr as ->.
    destruct Hch as [-> _]. done.
  - destruct (chain_before k r Hr) as [r' Hr'].
    pose proof (chain_lower k r r' Hr' Hr) as Hl. unfold lowerItem in Hl.
    destruct (truthy (lowerOf h r)); [| done]. by rewrite Hl.
Qed.

Lemma chain_id_in_prefix k j r :
  c !! k = Some r → idOf h r ∈ ids (take j c) ↔ k < j.
Proof using Hnd.
  clear Hidx Hch Htruthy. intros Hr.
  rewrite elem_of_list_to_set, list_elem_of_fmap. split.
  - intros (x & Heq & (i & Hx)%list_elem_of_lookup_1).
    apply lookup_take_Some in Hx as [Hx Hi].
    assert (i = k); [| lia].
    eapply (NoDup_lookup (idOf h <$> c)); [done | |].
    + rewrite list_lookup_fmap, Hx. simpl. by rewrite <- Heq.
    + by rewrite list_lookup_fmap, Hr.
  - intros Hk. exists r. split; [done |].
    apply list_elem_of_lookup. exists k. by rewrite lookup_take_lt.
Qed.

Lemma chain_push k r :
  c !! k = Some r →
  (take k c ++ [r], ids (take k c) ∪ {[idOf h r]}) =
  (take (S k) c, ids (take (S k) c)).
Proof using Type.
  clear. intros Hr. rewrite (take_S_r c k r Hr).
  rewrite fmap_app, list_to_set_app_L. simpl. by rewrite union_empty_r_L.
Qed.

(** [addItemToOrder] on the [k]-th record of the chain, when
    [orderedItems] holds the first [j] records of the chain: it places the
    records from the [j]-th to the [k]-th, in the order of the chain. *)
Lemma addItemToOrder_chain k :
  ∀ r j g,
    c !! k = Some r → k < g →
    addItemToOrder h m g r (take j c, ids (take j c)) =
      Ok (take (j `max` S k) c, ids (take (j `max` S k) c)).
Proof using Hch Hidx Hnd Htruthy.
  induction k as [| k IH]; intros r j g Hr Hg;
    (destruct g as [| g]; [lia |]); rewrite addItemToOrder_S; cbn [fst snd];
    case_bool_decide as Hin.
  - apply (chain_id_in_prefix 0 j r Hr) in Hin.
    by replace (j `max` 1) with j by lia.
  - rewrite (chain_id_in_prefix 0 j r Hr) in Hin.
    replace j with 0 by lia. rewrite (chain_bottom r Hr), outcome_bind_Ok.
    cbn [fst snd]. replace (0 `max` 1) with 1 by lia.
    by rewrite (chain_push 0 r Hr).
  - apply (chain_id_in_prefix (S k) j r Hr) in Hin.
    by replace (j `max` S (S k)) with j by lia.
  - rewrite (chain_id_in_prefix (S k) j r Hr) in Hin.
    destruct (chain_before k r Hr) as [r' Hr'].
    rewrite (chain_lower k r r' Hr' Hr).
    rewrite (IH r' j g Hr') by lia. rewrite outcome_bind_Ok. cbn [fst snd].
    replace (j `max` S k) with (S k) by lia.
    replace (j `max` S (S k)) with (S (S k)) by lia.
    by rewrite (chain_push (S k) r Hr).
Qed.

(** The third pass over records of the chain keeps [orderedItems] a
    prefix of the chain that holds every record it has been given. *)
Lemma linearize_chain g its :
  ∀ j,
    (∀ r, r ∈ its → ∃ k, k < g ∧ c !! k = Some r) →
    ∃ j', linearize h m g its (take j c, ids (take j c)) =
            Ok (take j' c, ids (take j' c)) ∧
          (∀ r, r ∈ take j c → r ∈ take j' c) ∧
          (∀ r, r ∈ its → r ∈ take j' c).
Proof using Hch Hidx Hnd Htruthy.
  induction its as [| r rest IH]; intros j Hits.
  { exists j. split_and!; [done | done |]. by intros r Hr%elem_of_nil. }
  destruct (Hits r) as (k & Hk & Hr); [apply list_elem_of_here |].
  simpl. rewrite (addItemToOrder_chain k r j g Hr Hk). simpl.
  destruct (IH (j `max` S k)) as (j' & -> & Hmono & Hin).
  { intros x Hx. apply Hits. by apply list_elem_of_further. }
  assert (∀ a b x, a ≤ b → x ∈ take a c → x ∈ take b c) as Htake.
  { intros a b x Hab (i & Hx)%list_elem_of_lookup_1.
    apply lookup_take_Some in Hx as [Hx Hi].
    apply list_elem_of_lookup. exists i. rewrite lookup_take_lt; [done | lia]. }
  exists j'. split_and!; [done | |].
  - intros x Hx. apply Hmono. apply (Htake j); [lia | done].
  - intros x [-> | Hx]%elem_of_cons; [| by apply Hin].
    apply Hmono. apply list_elem_of_lookup. exists k.
    rewrite lookup_take_lt; [done | lia].
Qed.

End chain_facts.

(** When the records form a single chain in which every record below the
    top one has a truthy id, the constructor given them in any order
    returns them bottom to top, and [top()] is the last element of
    [items()]. *)
Theorem chain_order (h : store) (c input : list loc) :
  single_chain h c →
  (∀ k r, c !! k = Some r → S k < length c → truthy (idOf h r) = true) →
  c ≡ₚ input →
  construct h input = Ok c ∧
  ∀ rnd n, items (State h c rnd n) = c ∧
           top (State h c rnd n) = last (items (State h c rnd n)).
Proof.
  intros (_ & Hnd & _ & Hch) Htruthy Hp.
  split; [| intros rnd n; split; [done | apply top_last]].
  assert (NoDup (idOf h <$> input)) as Hnd' by (by rewrite <- Hp).
  destruct (buildMap_unique h input ∅ Hnd') as [m Hb]; [done |].
  destruct (buildMap_empty _ _ _ Hb) as (_ & Hsize & Hcoh & Hidx' & _).
  assert (∀ r, r ∈ c → m !! idOf h r = Some r) as Hidx.
  { intros r Hr. apply Hidx'. by rewrite <- Hp. }
  assert (∀ r, r ∈ input → ∃ k, k < S (length input) ∧ c !! k = Some r) as Hpos.
  { intros r Hr. rewrite <- Hp in Hr.
    apply list_elem_of_lookup_1 in Hr as [k Hk]. exists k. split; [| done].
    apply lookup_lt_Some in Hk. rewrite <- Hp. lia. }
  rewrite construct_unfold, Hb, outcome_bind_Ok.
  rewrite <- (app_nil_r input) at 2.
  rewrite (validate_passes h m Hcoh (S (length input))); [| lia |].
  2: { intros p Hpin. destruct (Hpos p Hpin) as (k & _ & Hk).
       split_and!.
       - apply Hidx. by eapply list_elem_of_lookup_2.
       - by eapply chain_not_dangling.
       - exists k. by eapply chain_descends. }
  simpl validate. rewrite outcome_bind_Ok.
  destruct (linearize_chain h m c Hidx Hnd Hch Htruthy (S (length input)) input 0 Hpos)
    as (j' & Hlin & _ & Hall).
  change (take 0 c) with (@nil loc) in Hlin.
  change (list_to_set (idOf h <$> [])) with (∅ : gset val) in Hlin.
  rewrite Hlin, outcome_bind_Ok. simpl. f_equal.
  apply take_ge.
  assert (c ⊆+ take j' c) as Hsub.
  { apply NoDup_submseteq; [by eapply NoDup_fmap_1 |].
    intros x Hx. apply Hall. by rewrite <- Hp. }
  apply submseteq_length in Hsub. rewrite length_take in Hsub. lia.
Qed.

Lemma chain_order_witness :
  idOf nameless_top 3 = VStr "" ∧
  construct nameless_top [3; 1; 2] = Ok [1; 2; 3] ∧
  top (State nameless_top [1; 2; 3] donkey_chicken 0) = Some 3.
Proof.
  split; [reflexivity |].
  destruct (chain_order nameless_top [1; 2; 3] [3; 1; 2]) as [Hc Ht].
  - split_and!; [done | | | done].
    + apply (bool_decide_unpack _). by vm_compute.
    + by repeat constructor.
  - intros k r Hk Hlt. simpl in Hlt.
    destruct k as [| [| k]]; [| | lia]; by injection Hk as <-.
  - apply (bool_decide_unpack _). by vm_compute.
  - split; [exact Hc |]. by rewrite (proj2 (Ht donkey_chicken 0)).
Defined.

(** C5: the code at a chain whose bottom record has the empty string as
    id, given top first.  The record on top names the bottom one by
    [lowerId: ""], which [if (item.lowerId)] takes for no [lowerId] at all:
    the two records stay in the order of the input, top first, and not in
    the order of the chain. *)
Lemma falsy_id_breaks_order :
  single_chain nameless_bottom [1; 2] ∧
  [1; 2] ≡ₚ [2; 1] ∧
  construct nameless_bottom [2; 1] = Ok [2; 1] ∧
  construct nameless_bottom [2; 1] ≠ Ok [1; 2].
Proof.
  split_and!; [| | reflexivity | done].
  - split_and!; [done | | | done].
    + apply (bool_decide_unpack _). by vm_compute.
    + by repeat constructor.
  - apply Permutation_swap.
Qed.

(** The same chain built by [add], which compares [lowerId] with the id of
    the top by [!==]: the record on top is accepted on the bottom one, and
    [items()] is the chain bottom to top. *)
Lemma add_orders_nameless_chain :
  add 2 (State nameless_bottom [1] always_half 0) =
    (State nameless_bottom [1; 2] always_half 0, Ok ()).
Proof. reflexivity. Qed.

(** ** Falsy values of [lowerId] *)

(** The constructor reads a [lowerId] only behind a test of its truthiness:
    two stores that agree on every [id], on the truthiness of every
    [lowerId] and on the truthy ones are the same to it. *)
Section same_view.
Context (h h' : store).
Context (Hid : ∀ l, idOf h l = idOf h' l).
Context (Htruthy : ∀ l, truthy (lowerOf h l) = truthy (lowerOf h' l)).
Context (Hlower : ∀ l, truthy (lowerOf h l) = true → lowerOf h l = lowerOf h' l).

Lemma buildMap_same items m0 : buildMap h items m0 = buildMap h' items m0.
Proof using Hid.
  clear Htruthy Hlower.
  revert m0. induction items as [| it rest IH]; intros m0; simpl; [done |].
  rewrite <- Hid. destruct (m0 !! idOf h it); [done | apply IH].
Qed.

Lemma checkCycle_same m f it v : checkCycle h m f it v = checkCycle h' m f it v.
Proof using Hid Htruthy Hlower.
  revert it v. induction f as [| f IH]; intros it v; simpl; [done |].
  rewrite <- !Hid, <- Htruthy. case_bool_decide; [done |].
  destruct (truthy (lowerOf h it)) eqn:Ht; [| done].
  rewrite <- (Hlower it Ht). destruct (m !! lowerOf h it); [| done].
  by rewrite IH.
Qed.

Lemma validate_same m f items v : validate h m f items v = validate h' m f items v.
Proof using Hid Htruthy Hlower.
  revert v. induction items as [| it rest IH]; intros v; simpl; [done |].
  rewrite <- Htruthy, <- checkCycle_same.
  destruct (truthy (lowerOf h it)) eqn:Ht.
  - rewrite <- (Hlower it Ht).
    destruct (negb _); simpl; [done |].
    destruct (checkCycle h m f it v); simpl; [apply IH | done | done].
  - simpl. destruct (checkCycle h m f it v); simpl; [apply IH | done | done].
Qed.

Lemma addItemToOrder_same m f it st :
  addItemToOrder h m f it st = addItemToOrder h' m f it st.
Proof using Hid Htruthy Hlower.
  revert it st. induction f as [| f IH]; intros it st; simpl; [done |].
  rewrite <- !Hid, <- Htruthy. case_bool_decide; [done |].
  destruct (truthy (lowerOf h it)) eqn:Ht; [| done].
  rewrite <- (Hlower it Ht). destruct (m !! lowerOf h it); [| done].
  by rewrite IH.
Qed.

Lemma linearize_same m f items st :
  linearize h m f items st = linearize h' m f items st.
Proof using Hid Htruthy Hlower.
  revert st. induction items as [| it rest IH]; intros st; simpl; [done |].
  rewrite <- addItemToOrder_same.
  destruct (addItemToOrder h m f it st); simpl; [apply IH | done | done].
Qed.

Lemma construct_same items : construct h items = construct h' items.
Proof using Hid Htruthy Hlower.
  rewrite !construct_unfold, <- buildMap_same.
  destruct (buildMap h items ∅) as [m | |]; simpl; [| done | done].
  rewrite <- validate_same.
  destruct (validate h m _ items ∅); simpl; [| done | done].
  by rewrite <- linearize_same.
Qed.

End same_view.

(** C10. A record whose [lowerId] is falsy is to the constructor a record
    without [lowerId]: the outcome is what it is with that [lowerId]
    replaced by [undefined]; the existence test lets the record pass
    whatever the [Map] holds; [checkCycle] returns from it without moving to
    another item; and [addItemToOrder] puts it in [orderedItems] without
    placing any item first. *)
Theorem falsy_lowerId_is_none (h : store) (x : loc) :
  truthy (lowerOf h x) = false →
  (∀ items,
     construct h items =
     construct (<[x := Item (idOf h x) VUndefined (data (h !!! x))]> h) items) ∧
  (∀ m, dangling h m x = false) ∧
  (∀ m f v, idOf h x ∉ v → checkCycle h m (S f) x v = Ok v) ∧
  (∀ m f ord added,
     idOf h x ∉ added →
     addItemToOrder h m (S f) x (ord, added) = Ok (ord ++ [x], added ∪ {[idOf h x]})).
Proof.
  intros Hx. split_and!.
  - intros items. apply construct_same.
    + intros l. unfold idOf. destruct (decide (x = l)) as [-> | Hne].
      * by rewrite lookup_total_insert_eq.
      * by rewrite lookup_total_insert_ne.
    + intros l. unfold lowerOf. destruct (decide (x = l)) as [-> | Hne].
      * by rewrite lookup_total_insert_eq.
      * by rewrite lookup_total_insert_ne.
    + intros l Hl. unfold lowerOf. destruct (decide (x = l)) as [-> | Hne].
      * congruence.
      * by rewrite lookup_total_insert_ne.
  - intros m. unfold dangling. by rewrite Hx.
  - intros m f v Hv. simpl. rewrite bool_decide_eq_false_2 by done.
    rewrite Hx. simpl. f_equal. set_solver.
  - intros m f ord added Hv. simpl. rewrite bool_decide_eq_false_2 by done.
    by rewrite Hx.
Qed.

Lemma falsy_lowerId_is_none_witness :
  lowerOf nameless_bottom 2 = VStr "" ∧
  construct nameless_bottom [2; 1] =
    construct (<[2 := Item (VStr "b") VUndefined VUndefined]> nameless_bottom) [2; 1] ∧
  dangling nameless_bottom ∅ 2 = false ∧
  checkCycle nameless_bottom {[VStr "" := 1]} 1 2 ∅ = Ok ∅ ∧
  addItemToOrder nameless_bottom {[VStr "" := 1]} 1 2 ([], ∅) = Ok ([2], ∅ ∪ {[VStr "b"]}).
Proof.
  destruct (falsy_lowerId_is_none nameless_bottom 2 eq_refl) as (Hc & Hd & Hw & Ha).
  split_and!.
  - reflexivity.
  - exact (Hc [2; 1]).
  - exact (Hd ∅).
  - apply (Hw {[VStr "" := 1]} 0 ∅). set_solver.
  - apply (Ha {[VStr "" := 1]} 0 [] ∅). set_solver.
Defined.

(** * Further properties of the constructor *)

(** ** What the constructor throws *)

Lemma buildMap_throws (h : store) (items : list loc) (m0 : gmap val loc) (e : error) :
  buildMap h items m0 = Throw e →
  ∃ x, x ∈ items ∧ e = DuplicateId (idOf h x).
Proof.
  revert m0. induction items as [| it rest IH]; intros m0; simpl; [done |].
  destruct (m0 !! idOf h it).
  - intros [= <-]. exists it. split; [apply list_elem_of_here | done].
  - intros (x & Hx & ->)%IH. exists x. split; [by apply list_elem_of_further | done].
Qed.

Lemma addItemToOrder_never_throws (h : store) (m : gmap val loc) (f : nat)
    (it : loc) (st : list loc * gset val) (e : error) :
  addItemToOrder h m f it st ≠ Throw e.
Proof.
  revert it st e. induction f as [| f IH]; intros it st e; [done |].
  rewrite addItemToOrder_S. case_bool_decide; [done |].
  destruct (lowerItem h m it) as [lower |]; [| done].
  destruct (addItemToOrder h m f lower st) as [st1 | e1 |] eqn:Hrec; try done.
  by apply IH in Hrec.
Qed.

Lemma linearize_never_throws (h : store) (m : gmap val loc) (f : nat)
    (its : list loc) (st : list loc * gset val) (e : error) :
  linearize h m f its st ≠ Throw e.
Proof.
  revert st. induction its as [| it rest IH]; intros st; simpl; [done |].
  destruct (addItemToOrder h m f it st) as [st1 | e1 |] eqn:Hadd; simpl;
    [apply IH | | done].
  by apply addItemToOrder_never_throws in Hadd.
Qed.

(** The second pass throws for a record it has reached: the dangling
    reference error for one whose [lowerId] fails the existence test, the
    cycle error for one whose walk does not end. *)
Lemma validate_throws (h : store) (m : gmap val loc) (f : nat) (its : list loc)
    (e : error) :
  coherent h m → size m < f →
  (∀ it, it ∈ its → m !! idOf h it = Some it) →
  validate h m f its ∅ = Throw e →
  (∃ x, x ∈ its ∧ dangling h m x = true ∧ e = DanglingReference (lowerOf h x)) ∨
  (∃ x k, x ∈ its ∧ e = CycleDetected k ∧ ¬ ∃ n, descends h m x n).
Proof.
  intros Hcoh Hfuel. induction its as [| it rest IH]; intros Hits; [done |].
  rewrite validate_cons. destruct (dangling h m it) eqn:Hd.
  { intros [= <-]. left. exists it. split; [apply list_elem_of_here | done]. }
  assert (∀ x, x ∈ rest → m !! idOf h x = Some x) as Hrest.
  { intros x Hx. apply Hits. by apply list_elem_of_further. }
  destruct (checkCycle_decides h m Hcoh f it) as [[-> _] | [[k ->] Hno]];
    [apply Hits, list_elem_of_here | done | |].
  - simpl. intros [(x & Hx & ?) | (x & k & Hx & ?)]%IH; [| | done].
    + left. exists x. split; [by apply list_elem_of_further | done].
    + right. exists x, k. split; [by apply list_elem_of_further | done].
  - simpl. intros [= <-]. right. exists it, k.
    split; [apply list_elem_of_here | done].
Qed.

(** The three passes, seen from the outcome of the constructor. *)
Lemma construct_throws (h : store) (items : list loc) (e : error) :
  construct h items = Throw e →
  buildMap h items ∅ = Throw e ∨
  ∃ m, buildMap h items ∅ = Ok m ∧
       validate h m (S (length items)) items ∅ = Throw e.
Proof.
  rewrite construct_unfold.
  destruct (buildMap h items ∅) as [m | e1 |] eqn:Hb; simpl;
    [| intros [= <-]; by left | done].
  destruct (validate h m _ items ∅) as [v | e1 |] eqn:Hv; simpl; [| | done].
  - destruct (linearize h m _ items ([], ∅)) as [st | e1 |] eqn:Hl; simpl; try done.
    by apply linearize_never_throws in Hl.
  - intros [= <-]. right. eauto.
Qed.

(** The constructor throws the duplicate id error exactly when two records
    of the input have the same id. *)
Theorem construct_duplicate_iff (h : store) (items : list loc) :
  (∃ v, construct h items = Throw (DuplicateId v)) ↔ ¬ NoDup (idOf h <$> items).
Proof.
  split.
  - intros [v [Hb | (m & Hb & Hv)]%construct_throws] Hnd.
    + destruct (buildMap_unique h items ∅ Hnd) as [m Hm]; [done | congruence].
    + destruct (buildMap_empty _ _ _ Hb) as (_ & Hsize & Hcoh & Hidx & _).
      apply validate_throws in Hv as [(x & _ & _ & ?) | (x & k & _ & ? & _)];
        [done | done | done | lia | done].
  - intros Hdup. rewrite construct_unfold.
    destruct (buildMap h items ∅) as [m | e |] eqn:Hb.
    + by apply buildMap_empty in Hb as (Hnd & _).
    + apply buildMap_throws in Hb as (x & _ & ->). simpl. eauto.
    + by apply buildMap_not_fuel in Hb.
Qed.

(** Every error of the constructor has its cause in the input: a duplicate
    id error names the id of a record whose id is not unique; a dangling
    reference error names the truthy [lowerId] of a record that is the id of
    no record; a cycle error comes with a record from which following
    [lowerId] never reaches a bottom record. *)
Theorem construct_error_sound (h : store) (items : list loc) (e : error) :
  construct h items = Throw e →
  (¬ NoDup (idOf h <$> items) ∧ ∃ x, x ∈ items ∧ e = DuplicateId (idOf h x)) ∨
  (NoDup (idOf h <$> items) ∧
   ∃ x, x ∈ items ∧ truthy (lowerOf h x) = true ∧
        (lowerOf h x ∉ idOf h <$> items) ∧ e = DanglingReference (lowerOf h x)) ∨
  (NoDup (idOf h <$> items) ∧
   ∃ m x k, buildMap h items ∅ = Ok m ∧ x ∈ items ∧ e = CycleDetected k ∧
            ¬ ∃ n, descends h m x n).
Proof.
  intros [Hb | (m & Hb & Hv)]%construct_throws.
  - left. split.
    + intros Hnd. destruct (buildMap_unique h items ∅ Hnd) as [m Hm]; [done | congruence].
    + by apply buildMap_throws in Hb.
  - right. destruct (buildMap_empty _ _ _ Hb) as (Hnd & Hsize & Hcoh & Hidx & _).
    apply validate_throws in Hv as [(x & Hx & Hd & ->) | (x & k & Hx & -> & Hno)];
      [| | done | lia | done].
    + left. split; [done |]. exists x.
      apply (dangling_true h items m x Hb) in Hd as [? ?]. done.
    + right. split; [done |]. exists m, x, k. done.
Qed.

Lemma construct_error_sound_witness :
  ∃ m, buildMap cycle_then_dangling [1; 2; 3] ∅ = Ok m ∧
       ∃ x, x ∈ [1; 2; 3] ∧ ¬ ∃ n, descends cycle_then_dangling m x n.
Proof.
  destruct (construct_error_sound cycle_then_dangling [1; 2; 3]
              (CycleDetected (VStr "a")) eq_refl)
    as [(_ & x & _ & Hx) | [(_ & x & _ & _ & _ & Hx) | (_ & m & x & k & Hm & Hx & _ & Hno)]];
    [done | done |].
  exists m. split; [done |]. exists x. done.
Defined.

(** ** What the constructor accepts *)

Lemma construct_passes (h : store) (items : list loc) (m : gmap val loc) :
  buildMap h items ∅ = Ok m →
  (∀ x, x ∈ items → dangling h m x = false ∧ ∃ n, descends h m x n) →
  construct h items =
    (st ← linearize h m (S (length items)) items ([], ∅); Ok st.1).
Proof.
  intros Hb Hall. rewrite construct_unfold, Hb, outcome_bind_Ok.
  destruct (buildMap_empty _ _ _ Hb) as (_ & Hsize & Hcoh & Hidx & _).
  rewrite <- (app_nil_r items) at 2.
  rewrite (validate_passes h m Hcoh (S (length items))); [done | lia |].
  intros p Hp. destruct (Hall p Hp). split_and!; [by apply Hidx | done | done].
Qed.

Lemma construct_returns_passes (h : store) (items ord : list loc) :
  construct h items = Ok ord →
  ∃ m added,
    buildMap h items ∅ = Ok m ∧
    (∀ x, x ∈ items → dangling h m x = false ∧ ∃ n, descends h m x n) ∧
    linearize h m (S (length items)) items ([], ∅) = Ok (ord, added).
Proof.
  intros Hc. destruct (construct_returns _ _ _ Hc) as (m & Hb & Hall & _).
  rewrite (construct_passes h items m Hb Hall) in Hc.
  destruct (linearize h m _ items ([], ∅)) as [[ord' added] | |] eqn:Hl; try done.
  simpl in Hc. injection Hc as <-. by exists m, added.
Qed.

(** The constructor returns exactly when the ids are pairwise distinct
    (the first pass leaves a [Map]), every truthy [lowerId] is the id of a
    record, and following [lowerId] from any record reaches a bottom
    record. *)
Theorem construct_accepts_iff (h : store) (items : list loc) :
  (∃ ord, construct h items = Ok ord) ↔
  ∃ m, buildMap h items ∅ = Ok m ∧
       (∀ x, x ∈ items → truthy (lowerOf h x) = true →
             lowerOf h x ∈ idOf h <$> items) ∧
       (∀ x, x ∈ items → ∃ n, descends h m x n).
Proof.
  split.
  - intros [ord (m & Hb & Hall & _)%construct_returns]. exists m.
    split_and!; [done | |].
    + intros x Hx Ht. destruct (Hall x Hx) as [Hd _].
      destruct (decide (lowerOf h x ∈ idOf h <$> items)) as [| Hno]; [done |].
      assert (dangling h m x = true) by (by apply (dangling_true h items)).
      congruence.
    + intros x Hx. by destruct (Hall x Hx).
  - intros (m & Hb & Href & Hwalk).
    destruct (buildMap_empty _ _ _ Hb) as (_ & Hsize & Hcoh & Hidx & _).
    assert (∀ x, x ∈ items → dangling h m x = false ∧ ∃ n, descends h m x n)
      as Hall.
    { intros x Hx. split; [| by apply Hwalk].
      apply not_true_is_false. intros [? ?]%(dangling_true h items); [| done].
      naive_solver. }
    rewrite (construct_passes h items m Hb Hall).
    destruct (linearize_places h m Hcoh (S (length items)) items []) as (new & Hlin & _).
    { intros x Hx. split; [by apply Hidx |].
      destruct (Hwalk x Hx) as [n Hn].
      destruct (checkCycle_decides h m Hcoh (S (length items)) x)
        as [[_ (n' & ? & ?)] | [_ Hno]]; [by apply Hidx | lia | eauto |].
      destruct Hno. eauto. }
    { constructor. }
    { by intros x Hx%elem_of_nil. }
    change (list_to_set (idOf h <$> [])) with (∅ : gset val) in Hlin.
    rewrite Hlin. simpl. eauto.
Qed.

(** ** The order the constructor leaves *)

Lemma lower_precedes_nil (h : store) : lower_precedes h [].
Proof. intros pre x post Heq. by destruct pre. Qed.

Lemma lower_precedes_snoc (h : store) (l : list loc) (x : loc) :
  lower_precedes h l →
  (truthy (lowerOf h x) = true → lowerOf h x ∈ idOf h <$> l) →
  lower_precedes h (l ++ [x]).
Proof.
  intros Hl Hx pre z post Heq Ht.
  destruct post as [| w post _] using rev_ind.
  - apply app_inj_tail in Heq as [-> ->]. by apply Hx.
  - rewrite app_comm_cons, app_assoc in Heq.
    apply app_inj_tail in Heq as [-> _]. by eapply Hl.
Qed.

Lemma lower_precedes_snoc_inv (h : store) (l : list loc) (x : loc) :
  lower_precedes h (l ++ [x]) →
  lower_precedes h l ∧
  (truthy (lowerOf h x) = true → lowerOf h x ∈ idOf h <$> l).
Proof.
  intros Hl. split.
  - intros pre z post ->. apply (Hl pre z (post ++ [x])).
    by rewrite <- app_assoc.
  - by apply (Hl l x []).
Qed.

Section order_kept.
Context (h : store) (m : gmap val loc) (Hcoh : coherent h m).
Implicit Types (it : loc) (ord : list loc).

Local Abbreviation ids l := (list_to_set (idOf h <$> l) : gset val).

(** [addItemToOrder] on a record that passed the existence test, in a
    [Map] whose records all passed it: what it appends keeps every record
    after the one its [lowerId] names. *)
Lemma addItemToOrder_keeps_order g :
  (∀ x, m !! idOf h x = Some x → dangling h m x = false) →
  ∀ it ord st',
    addItemToOrder h m g it (ord, ids ord) = Ok st' →
    dangling h m it = false →
    lower_precedes h ord →
    ∃ new, st' = (ord ++ new, ids (ord ++ new)) ∧
           lower_precedes h (ord ++ new) ∧
           idOf h it ∈ ids (ord ++ new).
Proof.
  intros Hmap. induction g as [| g IH]; intros it ord st'; [done |].
  rewrite addItemToOrder_S. cbn [snd]. case_bool_decide as Hin.
  { intros [= <-] _ Hord. exists []. by rewrite app_nil_r. }
  intros Hadd Hd Hord.
  destruct (lowerItem h m it) as [lower |] eqn:Hl.
  - destruct (addItemToOrder h m g lower (ord, ids ord)) as [st1 | |] eqn:Hrec;
      try done.
    destruct (IH lower ord st1 Hrec) as (new & -> & Hord1 & Hlow); [| done |].
    { apply Hmap. by eapply lowerItem_indexed. }
    simpl in Hadd. injection Hadd as <-.
    exists (new ++ [it]). rewrite app_assoc, ids_snoc.
    split_and!; [done | | set_solver].
    apply lower_precedes_snoc; [done |]. intros Ht.
    unfold lowerItem in Hl. rewrite Ht in Hl.
    rewrite <- (Hcoh _ _ Hl). by apply elem_of_list_to_set in Hlow.
  - simpl in Hadd. injection Hadd as <-.
    exists [it]. rewrite ids_snoc. split_and!; [done | | set_solver].
    apply lower_precedes_snoc; [done |]. intros Ht. exfalso.
    unfold dangling in Hd. unfold lowerItem in Hl. rewrite Ht in *.
    by rewrite Hl in Hd.
Qed.

Lemma linearize_keeps_order g its :
  (∀ x, m !! idOf h x = Some x → dangling h m x = false) →
  ∀ ord st',
    linearize h m g its (ord, ids ord) = Ok st' →
    (∀ it, it ∈ its → dangling h m it = false) →
    lower_precedes h ord →
    ∃ new, st' = (ord ++ new, ids (ord ++ new)) ∧ lower_precedes h (ord ++ new).
Proof.
  intros Hmap. induction its as [| it rest IH]; intros ord st'.
  { intros [= <-] _ Hord. exists []. by rewrite app_nil_r. }
  simpl. destruct (addItemToOrder h m g it (ord, ids ord)) as [st1 | |] eqn:Hadd;
    try done.
  simpl. intros Hlin Hits Hord.
  destruct (addItemToOrder_keeps_order g Hmap it ord st1 Hadd)
    as (new1 & -> & Hord1 & _); [apply Hits, list_elem_of_here | done |].
  destruct (IH (ord ++ new1) st' Hlin) as (new2 & -> & Hord2); [| done |].
  { intros x Hx. apply Hits. by apply list_elem_of_further. }
  exists (new1 ++ new2). by rewrite app_assoc.
Qed.

(** The third pass over records that already come after the record their
    [lowerId] names: it appends them one by one, in the order given. *)
Lemma linearize_ordered g rest :
  ∀ pre,
    NoDup (idOf h <$> (pre ++ rest)) →
    lower_precedes h (pre ++ rest) →
    (∀ x, x ∈ pre ++ rest → m !! idOf h x = Some x) →
    length (pre ++ rest) < g →
    linearize h m g rest (pre, ids pre) = Ok (pre ++ rest, ids (pre ++ rest)).
Proof.
  induction rest as [| x rest IH]; intros pre Hnd Hord Hidx Hlen.
  { by rewrite app_nil_r. }
  assert (addItemToOrder h m g x (pre, ids pre) = Ok (pre ++ [x], ids (pre ++ [x])))
    as Hadd.
  { rewrite length_app in Hlen. simpl in Hlen.
    destruct g as [| [| g]]; [lia | lia |].
    rewrite addItemToOrder_S. cbn [snd].
    rewrite bool_decide_eq_false_2.
    2: { rewrite fmap_app, fmap_cons in Hnd.
         apply NoDup_app in Hnd as (_ & Hnot & _).
         rewrite elem_of_list_to_set. intros Hin.
         apply (Hnot _ Hin), list_elem_of_here. }
    unfold lowerItem. destruct (truthy (lowerOf h x)) eqn:Ht.
    - pose proof (Hord pre x rest eq_refl Ht) as Hin.
      apply list_elem_of_fmap in Hin as (y & Hy & Hin).
      assert (m !! idOf h y = Some y) as Hyi.
      { apply Hidx. rewrite elem_of_app. by left. }
      rewrite Hy, Hyi. rewrite addItemToOrder_S. cbn [snd].
      rewrite bool_decide_eq_true_2.
      + rewrite outcome_bind_Ok. cbn [fst snd]. by rewrite ids_snoc.
      + apply elem_of_list_to_set. by apply list_elem_of_fmap_2.
    - rewrite outcome_bind_Ok. cbn [fst snd]. by rewrite ids_snoc. }
  simpl. rewrite Hadd, outcome_bind_Ok.
  assert ((pre ++ [x]) ++ rest = pre ++ x :: rest) as Heq by (by rewrite <- app_assoc).
  rewrite <- Heq in *. by apply IH.
Qed.

(** Records in such an order all start walks that end. *)
Lemma ordered_descends l :
  lower_precedes h l →
  (∀ x, x ∈ l → m !! idOf h x = Some x) →
  ∀ x, x ∈ l → ∃ n, descends h m x n.
Proof.
  induction l as [| z l IH] using rev_ind; intros Hord Hidx x Hx.
  { by apply elem_of_nil in Hx. }
  apply lower_precedes_snoc_inv in Hord as [Hord Hz].
  assert (∀ y, y ∈ l → ∃ n, descends h m y n) as Hl.
  { apply IH; [done |]. intros y Hy. apply Hidx. rewrite elem_of_app. by left. }
  apply elem_of_app in Hx as [Hx | ->%list_elem_of_singleton]; [by apply Hl |].
  destruct (lowerItem h m z) as [lower |] eqn:Hlow.
  - assert (lower ∈ l) as Hin.
    { unfold lowerItem in Hlow. destruct (truthy (lowerOf h z)) eqn:Ht; [| done].
      pose proof (Hz eq_refl) as Hyl.
      apply list_elem_of_fmap in Hyl as (y & Hy & Hyl).
      assert (m !! idOf h y = Some y) as Hyi.
      { apply Hidx. rewrite elem_of_app. by left. }
      rewrite Hy, Hyi in Hlow. by injection Hlow as <-. }
    destruct (Hl lower Hin) as [n Hn]. exists (S n). by eapply descends_lower.
  - exists 0. by apply descends_bottom.
Qed.

End order_kept.

(** A [Map] built from a rearrangement of the records is the same [Map]. *)
Lemma buildMap_perm (h : store) (items ord : list loc) (m : gmap val loc) :
  items ≡ₚ ord → buildMap h items ∅ = Ok m → buildMap h ord ∅ = Ok m.
Proof.
  intros Hp Hb.
  destruct (buildMap_ok _ _ _ _ Hb) as (Hnd & _ & _ & Hlook).
  destruct (buildMap_unique h ord ∅) as [m' Hb']; [by rewrite <- Hp | done |].
  destruct (buildMap_ok _ _ _ _ Hb') as (_ & _ & _ & Hlook').
  rewrite Hb'. f_equal. apply map_eq. intros k. apply option_eq. intros l.
  rewrite Hlook, Hlook'. by setoid_rewrite Hp.
Qed.

(** The constructor on records whose ids are in the [Map] [m] and that
    already come after the record their [lowerId] names. *)
Lemma construct_ordered (h : store) (items : list loc) (m : gmap val loc) :
  buildMap h items ∅ = Ok m →
  lower_precedes h items →
  construct h items = Ok items.
Proof.
  intros Hb Hord.
  destruct (buildMap_empty _ _ _ Hb) as (Hnd & Hsize & Hcoh & Hidx & _).
  rewrite (construct_passes h items m Hb).
  - pose proof (linearize_ordered h m (S (length items)) items [] Hnd Hord Hidx) as Hlin.
    change (list_to_set (idOf h <$> [])) with (∅ : gset val) in Hlin.
    rewrite Hlin; [done | simpl; lia].
  - intros x Hx. split; [| by eapply ordered_descends].
    apply not_true_is_false. intros [Ht Hno]%(dangling_true h items); [| done].
    apply list_elem_of_split in Hx as (pre & post & ->).
    apply Hno. rewrite fmap_app, elem_of_app. left. by eapply Hord.
Qed.

(** In the sequence of a whiteboard the constructor returns, every record
    with a truthy [lowerId] comes after the record that [lowerId] names. *)
Theorem construct_lower_first (h : store) (items ord : list loc) :
  construct h items = Ok ord → lower_precedes h ord.
Proof.
  intros (m & added & Hb & Hall & Hlin)%construct_returns_passes.
  destruct (buildMap_empty _ _ _ Hb) as (_ & _ & Hcoh & _ & Hrange).
  destruct (linearize_keeps_order h m Hcoh (S (length items)) items) with
    (ord := @nil loc) (st' := (ord, added)) as (new & [= -> _] & Hord).
  - intros x Hx. by apply Hall, (Hrange (idOf h x)).
  - done.
  - intros x Hx. by apply Hall.
  - apply lower_precedes_nil.
  - done.
Qed.

Lemma construct_lower_first_witness :
  lowerOf pets 2 ∈ idOf pets <$> [1; 3].
Proof.
  apply (construct_lower_first pets [1; 2; 3; 4] [1; 3; 2; 4] eq_refl [1; 3] 2 [4]);
    reflexivity.
Defined.

(** Given records with pairwise distinct ids that already come after the
    record their [lowerId] names, the constructor returns them in the order
    given. *)
Theorem construct_keeps_ordered (h : store) (items : list loc) :
  NoDup (idOf h <$> items) →
  lower_precedes h items →
  construct h items = Ok items.
Proof.
  intros Hnd Hord.
  destruct (buildMap_unique h items ∅ Hnd) as [m Hb]; [done |].
  by apply (construct_ordered h items m).
Qed.

(** Building a whiteboard again from what [items()] returns gives the same
    sequence: the constructor leaves its own output as it is. *)
Theorem construct_items_again (h : store) (items ord : list loc) :
  construct h items = Ok ord → construct h ord = Ok ord.
Proof.
  intros Hc.
  destruct (construct_returns _ _ _ Hc) as (m & Hb & _ & Hp & _).
  destruct (construct_returns_passes _ _ _ Hc) as (m' & added & Hb' & Hall & Hlin).
  assert (m' = m) as -> by congruence.
  destruct (buildMap_empty _ _ _ Hb) as (_ & _ & Hcoh & _ & Hrange).
  apply (construct_ordered h ord m); [by apply (buildMap_perm h items) |].
  destruct (linearize_keeps_order h m Hcoh (S (length items)) items) with
    (ord := @nil loc) (st' := (ord, added)) as (new & [= -> _] & Hord).
  - intros x Hx. by apply Hall, (Hrange (idOf h x)).
  - done.
  - intros x Hx. by apply Hall.
  - apply lower_precedes_nil.
  - done.
Qed.

Lemma construct_items_again_witness :
  construct pets [1; 3; 2; 4] = Ok [1; 3; 2; 4].
Proof. exact (construct_items_again pets [1; 2; 3; 4] [1; 3; 2; 4] eq_refl). Defined.

Lemma construct_keeps_ordered_witness :
  construct fork [1; 2; 3] = Ok [1; 2; 3].
Proof.
  apply construct_keeps_ordered.
  - apply (bool_decide_unpack _). by vm_compute.
  - apply (lower_precedes_snoc fork [1; 2] 3).
    + apply (lower_precedes_snoc fork [1] 2).
      * apply (lower_precedes_snoc fork [] 1); [apply lower_precedes_nil | done].
      * intros _. apply (bool_decide_unpack _). by vm_compute.
    + intros _. apply (bool_decide_unpack _). by vm_compute.
Defined.

(** The constructor never looks at [data]: two stores whose records have
    the same [id] and [lowerId] give the same outcome. *)
Theorem construct_ignores_data (h h' : store) (items : list loc) :
  (∀ l, id (h !!! l) = id (h' !!! l)) →
  (∀ l, lowerId (h !!! l) = lowerId (h' !!! l)) →
  construct h items = construct h' items.
Proof.
  intros Hid Hlow. apply construct_same.
  - intros l. apply Hid.
  - intros l. unfold lowerOf. by rewrite Hlow.
  - intros l _. apply Hlow.
Qed.

Lemma construct_ignores_data_witness :
  data (pets_blank !!! 1) = VNull ∧
  construct pets [1; 2; 3; 4] = construct pets_blank [1; 2; 3; 4].
Proof.
  split; [reflexivity |].
  apply construct_ignores_data; intros l; unfold pets_blank;
    rewrite !lookup_total_alt, lookup_fmap; by destruct (pets !! l).
Defined.

(** ** [top] *)

(** [top()] is the last element of [items()]; it is [undefined] exactly on
    a whiteboard without records. *)
Theorem top_last_or_absent (st : state) :
  top st = last (items st) ∧ (top st = None ↔ items st = []).
Proof.
  split; [apply top_last |]. rewrite top_last. unfold items.
  destruct (itemsList st) as [| x l] using rev_ind; [done |].
  rewrite last_snoc. split; [done |]. by intros [_ ?]%app_nil.
Qed.

(** * Further properties of [add] *)

Lemma strict_eq_true (a b : val) : strict_eq a b = true → a = b.
Proof.
  unfold strict_eq. destruct a, b; try done; by intros ?%bool_decide_eq_true.
Qed.

Lemma strict_eq_false (a b : val) : strict_eq a b = false → b ≠ VNaN → a ≠ b.
Proof.
  unfold strict_eq. intros Hf Hb ->.
  destruct b; try done; by apply bool_decide_eq_false in Hf.
Qed.

Lemma add_ok_inv (x : loc) (st st' : state) :
  add x st = (st', Ok ()) →
  (∀ e, e ∈ itemsList st →
        strict_eq (id (objects st !!! e)) (id (objects st !!! x)) = false) ∧
  (∀ t, top st = Some t →
        lowerId (objects st !!! x) = id (objects st !!! t)) ∧
  st' = State (objects st) (itemsList st ++ [x]) (random st) (drawn st).
Proof.
  unfold add. intros Hadd.
  destruct (existsb _ _) eqn:Hex; [done |].
  destruct (top st) as [t |] eqn:Ht.
  - destruct (negb _) eqn:Hneg; [done |]. injection Hadd as <-.
    split_and!; [| | done].
    + intros e He. apply not_true_is_false. intros Hs.
      assert (existsb (λ existingItem, strict_eq (id (objects st !!! existingItem))
                                         (id (objects st !!! x))) (itemsList st) = true)
        as Hc; [| congruence].
      apply existsb_exists. exists e. split; [by apply list_elem_of_In | done].
    + intros t' [= <-]. apply negb_false_iff in Hneg.
      symmetry. by apply strict_eq_true.
  - injection Hadd as <-. split_and!; [| done | done].
    intros e He. apply not_true_is_false. intros Hs.
    assert (existsb (λ existingItem, strict_eq (id (objects st !!! existingItem))
                                       (id (objects st !!! x))) (itemsList st) = true)
      as Hc; [| congruence].
    apply existsb_exists. exists e. split; [by apply list_elem_of_In | done].
Qed.

Lemma add_fresh_id (x : loc) (st : state) :
  (∀ e, e ∈ itemsList st →
        strict_eq (id (objects st !!! e)) (id (objects st !!! x)) = false) →
  id (objects st !!! x) ≠ VNaN →
  NoDup (idOf (objects st) <$> itemsList st) →
  NoDup (idOf (objects st) <$> (itemsList st ++ [x])).
Proof.
  intros Hnew Hnan Hnd. rewrite fmap_app. apply NoDup_app.
  split_and!; [done | | apply NoDup_singleton].
  intros k Hk Hx. simpl in Hx. apply list_elem_of_singleton in Hx as ->.
  apply list_elem_of_fmap in Hk as (e & Heq & He).
  by apply (strict_eq_false _ _ (Hnew e He)).
Qed.

Lemma chained_snoc (h : store) (below : val) (l : list loc) (x : loc) :
  chained h below l →
  lowerOf h x = from_option (idOf h) below (last l) →
  chained h below (l ++ [x]).
Proof.
  revert below. induction l as [| a l IH]; intros below; simpl.
  { by intros _ ->. }
  intros [-> Hl] Hx. split; [done |]. apply IH; [done |].
  rewrite Hx. destruct l as [| b l]; [done |]. rewrite last_cons_cons.
  assert (is_Some (last (b :: l))) as [t ->] by (by apply last_is_Some).
  done.
Qed.

(** A successful [add] of a record whose id is not [NaN] keeps what the
    constructor establishes: the ids stay pairwise distinct, every truthy
    [lowerId] still names a record placed before, and the constructor given
    the new [items()] returns it unchanged.  On a whiteboard without records
    this needs the [lowerId] of the new record to be falsy. *)
Theorem add_keeps_board (x : loc) (st st' : state) :
  NoDup (idOf (objects st) <$> items st) →
  lower_precedes (objects st) (items st) →
  id (objects st !!! x) ≠ VNaN →
  (items st = [] → truthy (lowerId (objects st !!! x)) = false) →
  add x st = (st', Ok ()) →
  NoDup (idOf (objects st') <$> items st') ∧
  lower_precedes (objects st') (items st') ∧
  construct (objects st') (items st') = Ok (items st').
Proof.
  unfold items. intros Hnd Hord Hnan Hempty (Hnew & Htop & ->)%add_ok_inv. simpl.
  assert (NoDup (idOf (objects st) <$> (itemsList st ++ [x]))) as Hnd'
    by (by apply add_fresh_id).
  assert (lower_precedes (objects st) (itemsList st ++ [x])) as Hord'.
  { apply lower_precedes_snoc; [done |]. intros Ht.
    destruct (top st) as [t |] eqn:Hts.
    - unfold lowerOf. rewrite (Htop t eq_refl).
      apply (list_elem_of_fmap_2 (idOf (objects st))).
      rewrite top_last in Hts. by apply last_Some_elem_of.
    - rewrite top_last in Hts. unfold lowerOf in Ht.
      rewrite Hempty in Ht; [done |].
      destruct (itemsList st) as [| a l] using rev_ind; [done |].
      by rewrite last_snoc in Hts. }
  split_and!; [done | done |].
  destruct (buildMap_unique (objects st) (itemsList st ++ [x]) ∅ Hnd') as [m Hb];
    [done |].
  by apply (construct_ordered _ _ m).
Qed.

Lemma add_keeps_board_witness :
  ∃ st', add 4 (State pets [1; 3; 2] always_half 0) = (st', Ok ()) ∧
         construct (objects st') (items st') = Ok (items st').
Proof.
  eexists. split; [reflexivity |].
  apply (add_keeps_board 4 (State pets [1; 3; 2] always_half 0)).
  - apply (bool_decide_unpack _). by vm_compute.
  - apply (lower_precedes_snoc pets [1; 3] 2).
    + apply (lower_precedes_snoc pets [1] 3).
      * apply (lower_precedes_snoc pets [] 1); [apply lower_precedes_nil | done].
      * intros _. apply (bool_decide_unpack _). by vm_compute.
    + intros _. apply (bool_decide_unpack _). by vm_compute.
  - done.
  - done.
  - reflexivity.
Defined.

(** A successful [add] to a single chain of a record whose id is neither
    [NaN] nor [undefined] leaves a single chain: the new record has the id of
    the former top as [lowerId] and is the new top. *)
Theorem add_extends_chain (x : loc) (st st' : state) :
  single_chain (objects st) (items st) →
  id (objects st !!! x) ≠ VNaN →
  id (objects st !!! x) ≠ VUndefined →
  add x st = (st', Ok ()) →
  single_chain (objects st') (items st') ∧
  (∃ t, top st = Some t ∧ lowerId (objects st' !!! x) = id (objects st' !!! t)) ∧
  top st' = Some x.
Proof.
  unfold items. intros (Hne & Hnd & Hdef & Hch) Hnan Hundef (Hnew & Htop & ->)%add_ok_inv.
  simpl. destruct (top st) as [t |] eqn:Hts.
  2: { apply last_is_Some in Hne as [t Ht]. rewrite top_last in Hts. congruence. }
  split_and!.
  - split_and!.
    + by intros [? ?]%app_nil.
    + by apply add_fresh_id.
    + apply Forall_app. split; [done |]. by apply Forall_singleton.
    + apply chained_snoc; [done |]. rewrite top_last in Hts. rewrite Hts. simpl.
      by apply Htop.
  - exists t. split; [done |]. by apply Htop.
  - rewrite top_last. simpl. apply last_snoc.
Qed.

Lemma add_extends_chain_witness :
  let st' := State pets [1; 3; 2; 4] donkey_chicken 0 in
  add 4 (State pets [1; 3; 2] donkey_chicken 0) = (st', Ok ()) ∧
  single_chain (objects st') (items st') ∧ top st' = Some 4.
Proof.
  intros st'. split; [reflexivity |].
  destruct (add_extends_chain 4 (State pets [1; 3; 2] donkey_chicken 0) st')
    as (Hc & _ & Ht).
  - split_and!; [done | | | done].
    + apply (bool_decide_unpack _). by vm_compute.
    + by repeat constructor.
  - done.
  - done.
  - reflexivity.
  - split; [exact Hc | exact Ht].
Defined.

(** * Further properties of [extract] *)

Lemma find_agree {A : Type} (f g : A → bool) (l : list A) :
  (∀ x, x ∈ l → f x = g x) → find f l = find g l.
Proof.
  induction l as [| a l IH]; intros Hfg; simpl; [done |].
  rewrite <- (Hfg a) by apply list_elem_of_here.
  destruct (f a); [done |]. apply IH. intros x Hx. apply Hfg.
  by apply list_elem_of_further.
Qed.

Lemma live_lookup (st st1 : state) (l : loc) :
  objects st ⊆ objects st1 → live st l → objects st1 !!! l = objects st !!! l.
Proof.
  intros Hsub [x Hx]. rewrite !lookup_total_alt.
  by rewrite (lookup_weaken _ _ _ _ Hx Hsub), Hx.
Qed.

Lemma live_mono (st st1 : state) (l : loc) :
  objects st ⊆ objects st1 → live st l → live st1 l.
Proof. intros Hsub [x Hx]. exists x. by eapply lookup_weaken. Qed.

(** Objects made meanwhile do not change which record a selected item
    stands for. *)
Lemma selected_stable (st st1 : state) (it : loc) :
  objects st ⊆ objects st1 → itemsList st1 = itemsList st →
  (∀ l, l ∈ itemsList st → live st l) → live st it →
  selected st1 it = selected st it.
Proof.
  intros Hsub Hi Hlive Hit. unfold selected. rewrite Hi.
  apply find_agree. intros e He.
  by rewrite (live_lookup st st1 e Hsub (Hlive e He)), (live_lookup st st1 it Hsub Hit).
Qed.

Lemma selected_on_board (st : state) (it e : loc) :
  selected st it = Some e → e ∈ itemsList st.
Proof. intros [? _]%find_some. by apply list_elem_of_In. Qed.

Lemma extractItem_selected (it : loc) (st : state) :
  extractItem it st =
    match selected st it with
    | None => (st, Throw (NotFound (id (objects st !!! it))))
    | Some e =>
        (State (<[fresh (dom (objects st)) :=
                  Item (drawnId (random st) (drawn st)) VUndefined
                    (data (objects st !!! e))]> (objects st))
           (itemsList st) (random st) (S (drawn st)),
         Ok (fresh (dom (objects st))))
    end.
Proof. unfold extractItem, selected. by destruct (find _ _). Qed.

Lemma linkStep_data (ex : list loc) (o : store) (i : nat) (l : loc) :
  data (linkStep ex o i !!! l) = data (o !!! l).
Proof.
  unfold linkStep.
  destruct (ex !! i) as [cur |]; [| done].
  destruct (ex !! (i - 1)) as [prev |]; [| done].
  destruct (decide (cur = l)) as [-> | Hne].
  - by rewrite lookup_total_insert_eq.
  - by rewrite lookup_total_insert_ne.
Qed.

Lemma linkAll_data (ex : list loc) (o : store) (l : loc) :
  data (linkAll ex o !!! l) = data (o !!! l).
Proof.
  unfold linkAll. generalize (seq 1 (length ex - 1)) as idx.
  intros idx. revert o. induction idx as [| i idx IH]; intros o; simpl; [done |].
  by rewrite IH, linkStep_data.
Qed.

Lemma Forall2_impl_when {A B : Type} (P : A → Prop) (R1 R2 : A → B → Prop)
    (l : list A) (k : list B) :
  Forall P l → Forall2 R1 l k →
  (∀ a b, P a → R1 a b → R2 a b) →
  Forall2 R2 l k.
Proof.
  intros HP HR Himp. induction HR as [| a b l k Hab _ IH]; [constructor |].
  apply Forall_cons in HP as [Ha HP]. constructor; [by apply Himp | by apply IH].
Qed.

Section selection_facts.
Implicit Types (st : state) (sel pre post out : list loc) (it x l : loc).

(** The state one successful call of the callback leaves, as far as the
    rest of the selection is concerned. *)
Lemma extractItem_step it st e :
  selected st it = Some e →
  (∀ l, l ∈ itemsList st → live st l) →
  ∃ st1 l,
    extractItem it st = (st1, Ok l) ∧
    objects st ⊆ objects st1 ∧
    itemsList st1 = itemsList st ∧
    drawn st1 = S (drawn st) ∧
    objects st1 !! l = Some (Item (drawnId (random st) (drawn st)) VUndefined
                               (data (objects st !!! e))) ∧
    (∀ l', l' ∈ itemsList st1 → live st1 l') ∧
    (∀ x, live st x → live st1 x ∧ selected st1 x = selected st x ∧
                      objects st1 !!! x = objects st !!! x).
Proof.
  intros He Hlive. rewrite extractItem_selected, He.
  set (st1 := State (<[fresh (dom (objects st)) :=
                       Item (drawnId (random st) (drawn st)) VUndefined
                         (data (objects st !!! e))]> (objects st))
                (itemsList st) (random st) (S (drawn st))).
  exists st1, (fresh (dom (objects st))).
  assert (objects st ⊆ objects st1) as Hsub.
  { apply insert_subseteq, (not_elem_of_dom (D := gset loc)), is_fresh. }
  split_and!; [done | done | done | done | apply lookup_insert_eq | |].
  - intros l' Hl'. by apply (live_mono st st1 l' Hsub), Hlive.
  - intros x Hx. split_and!.
    + by apply (live_mono st st1 x Hsub).
    + by apply selected_stable.
    + by apply (live_lookup st st1 x Hsub).
Qed.

(** When every selected item stands for a record, the [map] returns. *)
Lemma extractMap_all_found sel :
  ∀ st,
    (∀ l, l ∈ itemsList st → live st l) →
    (∀ it, it ∈ sel → live st it ∧ is_Some (selected st it)) →
    ∃ st' out, extractMap sel st = (st', Ok out).
Proof.
  induction sel as [| it rest IH]; intros st Hlive Hsel; simpl; [eauto |].
  destruct (Hsel it) as (Hit & e & He); [apply list_elem_of_here |].
  destruct (extractItem_step it st e He Hlive)
    as (st1 & l & -> & _ & _ & _ & _ & Hlive1 & Hkeep).
  destruct (IH st1 Hlive1) as (st' & out & ->); [| eauto].
  intros x Hx. destruct (Hsel x) as [Hxl Hxs]; [by apply list_elem_of_further |].
  destruct (Hkeep x Hxl) as (? & -> & _). done.
Qed.

(** The first selected item that stands for no record stops the [map]: the
    error names its id, one number has been drawn for each item before it,
    and the whiteboard is as it was. *)
Lemma extractMap_missing pre x post :
  ∀ st,
    (∀ l, l ∈ itemsList st → live st l) →
    (∀ it, it ∈ pre → live st it ∧ is_Some (selected st it)) →
    live st x → selected st x = None →
    ∃ st1, extractMap (pre ++ x :: post) st =
             (st1, Throw (NotFound (id (objects st !!! x)))) ∧
           drawn st1 = drawn st + length pre ∧
           itemsList st1 = itemsList st.
Proof.
  induction pre as [| it pre IH]; intros st Hlive Hpre Hx Hno; simpl.
  { rewrite extractItem_selected, Hno. exists st. split_and!; [done | lia | done]. }
  destruct (Hpre it) as (Hit & e & He); [apply list_elem_of_here |].
  destruct (extractItem_step it st e He Hlive)
    as (st1 & l & -> & _ & Hi1 & Hd1 & _ & Hlive1 & Hkeep).
  destruct (Hkeep x Hx) as (Hx1 & Hsx & Hox).
  destruct (IH st1 Hlive1) as (st2 & -> & Hd2 & Hi2); [| done | congruence |].
  { intros y Hy. destruct (Hpre y) as [Hyl Hys]; [by apply list_elem_of_further |].
    destruct (Hkeep y Hyl) as (? & -> & _). done. }
  exists st2. rewrite Hox. split_and!; [done | lia | congruence].
Qed.

(** What the copies of a [map] that returned hold: each selected item
    stood for a record, and its copy has the [data] of that record. *)
Lemma extractMap_copies sel :
  ∀ st st' out,
    (∀ l, l ∈ itemsList st → live st l) →
    (∀ it, it ∈ sel → live st it) →
    extractMap sel st = (st', Ok out) →
    Forall2 (λ it l, ∃ e, selected st it = Some e ∧
                          data (objects st' !!! l) = data (objects st !!! e))
      sel out.
Proof.
  induction sel as [| it rest IH]; intros st st' out Hlive Hsel; simpl.
  { intros [= <- <-]. constructor. }
  destruct (selected st it) as [e |] eqn:He.
  2: { by rewrite extractItem_selected, He. }
  destruct (extractItem_step it st e He Hlive)
    as (st1 & l & -> & Hsub1 & _ & _ & Hl & Hlive1 & Hkeep).
  destruct (extractMap rest st1) as [st2 [ls | |]] eqn:Hrest; try done.
  intros [= <- <-].
  destruct (extractMap_frame _ _ _ _ Hrest) as (_ & _ & Hsub2).
  constructor.
  - exists e. split; [done |].
    by rewrite lookup_total_alt, (lookup_weaken _ _ _ _ Hl Hsub2).
  - assert (∀ x, x ∈ rest → live st x) as Hrestlive.
    { intros x Hx. apply Hsel. by apply list_elem_of_further. }
    eapply (Forall2_impl_when (λ x, live st x)).
    + by apply Forall_forall.
    + apply (IH st1 st2 ls Hlive1); [| done].
      intros x Hx. by apply Hkeep, Hrestlive.
    + intros x l' Hx (e' & He' & Hd). simpl in *.
      destruct (Hkeep x Hx) as (_ & Hsx & _). rewrite Hsx in He'.
      exists e'. split; [done |]. rewrite Hd. f_equal.
      apply (live_lookup st st1 e' Hsub1), Hlive.
      by apply (selected_on_board st x).
Qed.

End selection_facts.

(** A selected item that stands for no record makes [extract] throw the
    not found error for its id, after one number has been drawn for each
    item selected before it; [this.itemsList] is as it was. *)
Theorem extract_not_found (pre : list loc) (x : loc) (post : list loc) (st : state) :
  (∀ l, l ∈ itemsList st ++ pre ++ [x] → live st l) →
  (∀ it, it ∈ pre → is_Some (selected st it)) →
  selected st x = None →
  ∃ st1, extract (pre ++ x :: post) st =
           (st1, Throw (NotFound (id (objects st !!! x)))) ∧
         drawn st1 = drawn st + length pre ∧
         items st1 = items st.
Proof.
  intros Hlive Hpre Hno.
  destruct (extractMap_missing pre x post st) as (st1 & Hmap & Hd & Hi).
  - intros l Hl. apply Hlive. rewrite elem_of_app. by left.
  - intros it Hit. split; [| by apply Hpre].
    apply Hlive. rewrite !elem_of_app. right. by left.
  - apply Hlive. rewrite !elem_of_app, list_elem_of_singleton. auto.
  - done.
  - exists st1. by rewrite extract_unfold, Hmap.
Qed.

Lemma extract_not_found_witness :
  let st := State (<[5 := Item (VStr "aaa") (VStr "dog") (VStr "yy")]> pets)
              [1; 3; 2; 4] donkey_chicken 0 in
  ∃ st1, extract [4; 5] st = (st1, Throw (NotFound (VStr "aaa"))) ∧
         drawn st1 = 1 ∧ items st1 = [1; 3; 2; 4].
Proof.
  intros st. destruct (extract_not_found [4] 5 [] st) as (st1 & He & Hd & Hi).
  - intros l Hl. apply (bool_decide_unpack _).
    repeat (apply elem_of_cons in Hl as [-> | Hl]; [by vm_compute |]).
    by apply elem_of_nil in Hl.
  - intros it ->%list_elem_of_singleton. by exists 4.
  - reflexivity.
  - exists st1. done.
Defined.

(** [extract] returns exactly when every selected item has the id of a
    record of the whiteboard. *)
Theorem extract_succeeds_iff (sel : list loc) (st : state) :
  (∀ l, l ∈ itemsList st ++ sel → live st l) →
  (∃ st' out, extract sel st = (st', Ok out)) ↔
  Forall (λ it, is_Some (selected st it)) sel.
Proof.
  intros Hlive.
  assert (∀ l, l ∈ itemsList st → live st l) as Hboard.
  { intros l Hl. apply Hlive. rewrite elem_of_app. by left. }
  assert (∀ it, it ∈ sel → live st it) as Hsel.
  { intros l Hl. apply Hlive. rewrite elem_of_app. by right. }
  split.
  - intros (st' & out & He). rewrite extract_unfold in He.
    destruct (extractMap sel st) as [st1 [out1 | |]] eqn:Hmap; try done.
    pose proof (extractMap_copies sel st st1 out1 Hboard Hsel Hmap) as HF.
    apply Forall2_Forall_l with (Q := λ it, is_Some (selected st it)) in HF;
      [done |].
    apply Forall_forall. intros l _ it (e & -> & _). by exists e.
  - intros Hall. rewrite Forall_forall in Hall.
    destruct (extractMap_all_found sel st Hboard) as (st' & out & Hmap).
    { intros it Hit. split; [by apply Hsel | by apply Hall]. }
    rewrite extract_unfold, Hmap. eauto.
Qed.

Lemma extract_succeeds_iff_witness :
  let st := State pets [1; 3; 2; 4] donkey_chicken 0 in
  (∃ st' out, extract [4; 3] st = (st', Ok out)) ↔
  Forall (λ it, is_Some (selected st it)) [4; 3].
Proof.
  intros st. apply extract_succeeds_iff.
  intros l Hl. apply (bool_decide_unpack _).
  repeat (apply elem_of_cons in Hl as [-> | Hl]; [by vm_compute |]).
  by apply elem_of_nil in Hl.
Defined.

(** Each copy [extract] returns has the [data] of the record of the
    whiteboard that the selected item names by its id, whatever [data] the
    selected item itself holds. *)
Theorem extract_copies_data (sel : list loc) (st st' : state) (out : list loc) :
  (∀ l, l ∈ itemsList st ++ sel → live st l) →
  extract sel st = (st', Ok out) →
  Forall2 (λ it l, ∃ e, selected st it = Some e ∧
                        data (objects st' !!! l) = data (objects st !!! e))
    sel out.
Proof.
  intros Hlive. rewrite extract_unfold.
  destruct (extractMap sel st) as [st1 [out1 | |]] eqn:Hmap; try done.
  intros [= <- <-]. simpl.
  eapply Forall2_impl; [apply (extractMap_copies sel st st1 out1) |].
  - intros l Hl. apply Hlive. rewrite elem_of_app. by left.
  - intros l Hl. apply Hlive. rewrite elem_of_app. by right.
  - done.
  - intros it l (e & ? & ?). exists e. by rewrite linkAll_data.
Qed.

Lemma extract_copies_data_witness :
  let st := State (<[5 := Item (VStr "rabbit") VNull (VStr "other")]> pets)
              [1; 3; 2; 4] donkey_chicken 0 in
  ∃ st', extract [5] st = (st', Ok [6]) ∧
         selected st 5 = Some 3 ∧
         data (objects st' !!! 6) = VStr "yy".
Proof.
  intros st. destruct (extract [5] st) as [st' r] eqn:He.
  assert (r = Ok [6]) as ->.
  { change r with (st', r).2. rewrite <- He. reflexivity. }
  exists st'. split; [done |]. split; [reflexivity |].
  assert (∀ l, l ∈ itemsList st ++ [5] → live st l) as Hlive.
  { intros l Hl. apply (bool_decide_unpack _).
    repeat (apply elem_of_cons in Hl as [-> | Hl]; [by vm_compute |]).
    by apply elem_of_nil in Hl. }
  pose proof (extract_copies_data [5] st st' [6] Hlive He) as HF.
  apply Forall2_cons_1 in HF as [(e & Hs & Hd) _].
  assert (selected st 5 = Some 3) as H3 by reflexivity.
  assert (e = 3) as -> by congruence.
  etrans; [exact Hd | reflexivity].
Defined.

(** ** The clipboard as a chain *)

Lemma chained_of_links (h : store) (out : list loc) :
  ∀ below,
    (∀ l, out !! 0 = Some l → lowerOf h l = below) →
    (∀ i prev l, out !! i = Some prev → out !! S i = Some l →
                 lowerOf h l = idOf h prev) →
    chained h below out.
Proof.
  induction out as [| a out IH]; intros below H0 HS; simpl; [done |].
  split; [by apply H0 |]. apply IH.
  - intros l Hl. by apply (HS 0 a l).
  - intros i prev l Hp Hl. by apply (HS (S i) prev l).
Qed.

(** What a call of [extract] that returned has drawn and made. *)
Lemma extract_ok_ids (sel : list loc) (st st' : state) (out : list loc) :
  extract sel st = (st', Ok out) →
  length out = length sel ∧
  idOf (objects st') <$> out = drawnId (random st) <$> seq (drawn st) (length sel) ∧
  random st' = random st ∧
  drawn st' = drawn st + length sel.
Proof.
  rewrite extract_unfold.
  destruct (extractMap sel st) as [st1 [out1 | |]] eqn:Hmap; try done.
  intros [= <- <-]. simpl.
  destruct (extractMap_ok _ _ _ _ Hmap) as (Hlen & Hd & _ & _ & Hids).
  destruct (extractMap_frame _ _ _ _ Hmap) as (_ & Hr & _).
  split_and!; [done | | done | done].
  rewrite <- Hids, <- (linkAll_snapshot_id out1 out1 (objects st1)).
  unfold snapshot. by rewrite <- list_fmap_compose.
Qed.

(** The copies [extract] returns form a chain in the order of the
    selection: there is one copy per selected item, the first has [lowerId]
    [undefined] and each later one has the new id of the copy before it. *)
Theorem extract_returns_chain (sel : list loc) (st st' : state) (out : list loc) :
  extract sel st = (st', Ok out) →
  length out = length sel ∧ chained (objects st') VUndefined out.
Proof.
  intros He. split; [by apply extract_ok_ids in He as (? & _) |].
  destruct (extract_follows_selection _ _ _ _ He) as [H0 HS].
  by apply chained_of_links.
Qed.

Lemma extract_returns_chain_witness :
  let st := State pets [1; 3; 2; 4] donkey_chicken 0 in
  ∃ st', extract [4; 3; 1] st = (st', Ok [5; 6; 7]) ∧
         chained (objects st') VUndefined [5; 6; 7].
Proof.
  intros st. destruct (extract [4; 3; 1] st) as [st' r] eqn:He.
  assert (r = Ok [5; 6; 7]) as ->.
  { change r with (st', r).2. rewrite <- He. reflexivity. }
  exists st'. split; [done |].
  exact (proj2 (extract_returns_chain [4; 3; 1] st st' [5; 6; 7] He)).
Defined.

(** The constructor on a single chain with truthy ids below the top, given
    in any order. *)
Lemma single_chain_built (h : store) (c input : list loc) :
  single_chain h c →
  (∀ k r, c !! k = Some r → S k < length c → truthy (idOf h r) = true) →
  c ≡ₚ input →
  construct h input = Ok c.
Proof.
  intros (_ & Hnd & _ & Hch) Htruthy Hp.
  assert (NoDup (idOf h <$> input)) as Hnd' by (by rewrite <- Hp).
  destruct (buildMap_unique h input ∅ Hnd') as [m Hb]; [done |].
  destruct (buildMap_empty _ _ _ Hb) as (_ & Hsize & Hcoh & Hidx' & _).
  assert (∀ r, r ∈ c → m !! idOf h r = Some r) as Hidx.
  { intros r Hr. apply Hidx'. by rewrite <- Hp. }
  assert (∀ r, r ∈ input → ∃ k, k < S (length input) ∧ c !! k = Some r) as Hpos.
  { intros r Hr. rewrite <- Hp in Hr.
    apply list_elem_of_lookup_1 in Hr as [k Hk]. exists k. split; [| done].
    apply lookup_lt_Some in Hk. rewrite <- Hp. lia. }
  rewrite (construct_passes h input m Hb).
  2: { intros p Hpin. destruct (Hpos p Hpin) as (k & _ & Hk). split.
       - by eapply chain_not_dangling.
       - exists k. by eapply chain_descends. }
  destruct (linearize_chain h m c Hidx Hnd Hch Htruthy (S (length input)) input 0 Hpos)
    as (j' & Hlin & _ & Hall).
  change (take 0 c) with (@nil loc) in Hlin.
  change (list_to_set (idOf h <$> [])) with (∅ : gset val) in Hlin.
  rewrite Hlin, outcome_bind_Ok. simpl. f_equal.
  apply take_ge.
  assert (c ⊆+ take j' c) as Hsub.
  { apply NoDup_submseteq; [by eapply NoDup_fmap_1 |].
    intros x Hx. apply Hall. by rewrite <- Hp. }
  apply submseteq_length in Hsub. rewrite length_take in Hsub. lia.
Qed.

(** When the ids [generateUniqueId] makes during the call are pairwise
    distinct, a new whiteboard can be built from the copies [extract]
    returns, given in any order: its sequence is the copies in the order of
    the selection. *)
Theorem extract_then_construct (sel : list loc) (st st' : state) (out input : list loc) :
  extract sel st = (st', Ok out) →
  NoDup (drawnId (random st) <$> seq (drawn st) (length sel)) →
  out ≡ₚ input →
  construct (objects st') input = Ok out.
Proof.
  intros He Hnd Hp.
  destruct out as [| l0 out0].
  { apply Permutation_nil_l in Hp as <-. reflexivity. }
  destruct (extract_ok_ids _ _ _ _ He) as (_ & Hids & _).
  destruct (extract_follows_selection _ _ _ _ He) as [H0 HS].
  assert (∀ l, l ∈ l0 :: out0 → ∃ n, idOf (objects st') l = drawnId (random st) n)
    as Hdrawn.
  { intros l Hl.
    apply (list_elem_of_fmap_2 (idOf (objects st'))) in Hl. rewrite Hids in Hl.
    apply list_elem_of_fmap in Hl as (n & -> & _). eauto. }
  apply single_chain_built; [| | done].
  - split_and!; [done | | | by apply chained_of_links].
    + by rewrite Hids.
    + apply Forall_forall. intros l [n ->]%Hdrawn. done.
  - intros k r Hk _. apply list_elem_of_lookup_2 in Hk.
    by destruct (Hdrawn r Hk) as [n ->].
Qed.

Lemma extract_then_construct_witness :
  let st := State pets [1; 3; 2; 4] donkey_chicken 0 in
  ∃ st', extract [4; 3] st = (st', Ok [5; 6]) ∧
         construct (objects st') [6; 5] = Ok [5; 6].
Proof.
  intros st. destruct (extract [4; 3] st) as [st' r] eqn:He.
  assert (r = Ok [5; 6]) as ->.
  { change r with (st', r).2. rewrite <- He. reflexivity. }
  exists st'. split; [done |].
  apply (extract_then_construct [4; 3] st st' [5; 6] [6; 5] He).
  - apply (bool_decide_unpack _). by vm_compute.
  - apply Permutation_swap.
Defined.

(** ** Two extractions in a row *)

Lemma linkAll_live (ex : list loc) (o : store) (l : loc) :
  is_Some (o !! l) → is_Some (linkAll ex o !! l).
Proof.
  unfold linkAll. generalize (seq 1 (length ex - 1)) as idx.
  intros idx. revert o. induction idx as [| i idx IH]; intros o Hl; simpl; [done |].
  apply IH. unfold linkStep.
  destruct (ex !! i) as [cur |]; [| done].
  destruct (ex !! (i - 1)) as [prev |]; [| done].
  apply lookup_insert_is_Some. destruct (decide (cur = l)); auto.
Qed.

Lemma extractMap_live (sel : list loc) (st st' : state) (out : list loc) :
  extractMap sel st = (st', Ok out) → ∀ l, l ∈ out → live st' l.
Proof.
  revert st st' out. induction sel as [| it rest IH]; intros st st' out; simpl.
  { intros [= <- <-] l Hl. by apply elem_of_nil in Hl. }
  destruct (extractItem it st) as [st1 r1] eqn:H1.
  destruct r1 as [l1 | e |]; try done.
  destruct (extractMap rest st1) as [st2 r2] eqn:H2.
  destruct r2 as [ls | e |]; try done.
  intros [= <- <-] l [-> | Hl]%elem_of_cons; [| by eapply IH].
  destruct (extractItem_ok _ _ _ _ H1) as (d & _ & Ho1 & _).
  destruct (extractMap_frame _ _ _ _ H2) as (_ & _ & Hsub).
  apply (live_mono st1 st2 l1 Hsub). unfold live. rewrite Ho1.
  rewrite lookup_insert_eq. eauto.
Qed.

(** The id of an object that exists is the same after [extract]. *)
Lemma extract_keeps_id (sel : list loc) (st st' : state) (r : outcome (list loc))
    (l : loc) :
  extract sel st = (st', r) → live st l →
  id (objects st' !!! l) = id (objects st !!! l).
Proof.
  rewrite extract_unfold.
  destruct (extractMap sel st) as [st1 r1] eqn:Hmap.
  destruct (extractMap_frame _ _ _ _ Hmap) as (_ & _ & Hsub).
  intros He Hl.
  assert (id (objects st1 !!! l) = id (objects st !!! l)) as Hid
    by (by rewrite (live_lookup st st1 l Hsub Hl)).
  destruct r1 as [out | e |]; injection He as <- <-; [| done | done].
  simpl. by rewrite linkAll_id.
Qed.

(** Two calls of [extract] in a row take consecutive numbers from
    [Math.random]: when the ids [generateUniqueId] makes during both calls
    are pairwise distinct, so are the ids of all the copies of both calls,
    read after the second call. *)
Theorem extract_twice_distinct (s1 s2 : list loc) (st st1 st2 : state)
    (o1 o2 : list loc) :
  extract s1 st = (st1, Ok o1) →
  extract s2 st1 = (st2, Ok o2) →
  NoDup (drawnId (random st) <$> seq (drawn st) (length s1 + length s2)) →
  NoDup (idOf (objects st2) <$> (o1 ++ o2)).
Proof.
  intros He1 He2 Hnd.
  destruct (extract_ok_ids _ _ _ _ He1) as (_ & Hids1 & Hr1 & Hd1).
  destruct (extract_ok_ids _ _ _ _ He2) as (_ & Hids2 & _).
  assert (idOf (objects st2) <$> o1 = idOf (objects st1) <$> o1) as Hkeep.
  { apply list_fmap_ext. intros i l Hl. unfold idOf.
    apply (extract_keeps_id s2 st1 st2 (Ok o2) l He2).
    rewrite extract_unfold in He1.
    destruct (extractMap s1 st) as [stm [out | |]] eqn:Hmap; try done.
    injection He1 as <- <-. unfold live. simpl.
    apply linkAll_live, (extractMap_live s1 st stm out Hmap).
    by eapply list_elem_of_lookup_2. }
  rewrite fmap_app, Hkeep, Hids1, Hids2, Hr1, Hd1, <- fmap_app.
  by rewrite <- seq_app.
Qed.

Lemma extract_twice_distinct_witness :
  let rnd (n : nat) : string :=
    match n with 0 => "a" | 1 => "b" | 2 => "c" | _ => "d" end in
  let st := State pets [1; 3; 2; 4] rnd 0 in
  ∃ st1 st2,
    extract [4; 3] st = (st1, Ok [5; 6]) ∧
    extract [1] st1 = (st2, Ok [7]) ∧
    NoDup (idOf (objects st2) <$> [5; 6; 7]).
Proof.
  intros rnd st.
  destruct (extract [4; 3] st) as [st1 r1] eqn:He1.
  assert (r1 = Ok [5; 6]) as ->.
  { change r1 with (st1, r1).2. rewrite <- He1. reflexivity. }
  destruct (extract [1] st1) as [st2 r2] eqn:He2.
  assert (r2 = Ok [7]) as ->.
  { change r2 with (st2, r2).2. rewrite <- He2.
    change st1 with (st1, Ok [5; 6] : outcome (list loc)).1. rewrite <- He1.
    reflexivity. }
  exists st1, st2. split_and!; [done | done |].
  apply (extract_twice_distinct [4; 3] [1] st st1 st2 [5; 6] [7] He1 He2).
  apply (bool_decide_unpack _). by vm_compute.
Defined.
